(** * zgrid: per-island aggregation of node measurements

    A shallow embedding of the [business] package (graph construction, island
    computation, measurement aggregation, the serial event loop) and of the
    enqueue phase of the two HTTP handlers of the [api] package.

    Conventions of the embedding:
    - a Go [map[string]T] is a [gmap string T]; the one map the code tests
      against [nil] ([Graph.Edges]) is an [option] whose [None] is the nil map;
    - a Go [float64] is a primitive binary64 float, added with [PrimFloat.add];
    - a slice is a list; the stack of the traversal keeps its top (the last
      element of the slice) at the head of the list;
    - [range] over a map visits the entries in an order Go leaves unspecified:
      the order used by a call is an explicit argument of the function;
    - an index out of range panics in Go: the functions that index return
      [None] for it. *)

From Stdlib Require Import Floats.
From Equations Require Import Equations.
From stdpp Require Import base gmap sets list strings pretty.

Set Warnings "-clear-no-such-hyp".

Module Business.

(** ** Package business: the graph *)

(** [NodeMeasurement]: a single measurement value reported by a node. *)
Record NodeMeasurement := mkNodeMeasurement { Node : string; Value : float }.

(** [IslandMeasurement]: the sum of the measurements of a connected island. *)
Record IslandMeasurement := mkIslandMeasurement { Island : list string; Total : float }.

(** [Graph]: a list of nodes and adjacency edges ([None] is the nil map). *)
Record Graph := mkGraph { Nodes : list string; Edges : option (gmap string (list string)) }.

(** [m[k]] on a map of slices: the zero value (the empty slice) for a missing
    key, and for every key of the nil map. *)
Definition index (m : option (gmap string (list string))) (k : string) : list string :=
  match m with
  | Some m => default [] (m !! k)
  | None => []
  end.

(** The body of the loop over [edges] in [NewGraph]. *)
Definition add_edge (nodeSet : gset string) (adj : gmap string (list string))
    (edge : list string) : gmap string (list string) :=
  match edge with
  | [a; b] =>
      if decide (a ∈ nodeSet) then
        if decide (b ∈ nodeSet) then
          let adj1 := <[a := default [] (adj !! a) ++ [b]]> adj in
          <[b := default [] (adj1 !! b) ++ [a]]> adj1
        else adj
      else adj
  | _ => adj
  end.

(** [NewGraph] creates a graph from nodes and a list of edges. *)
Definition NewGraph (nodes : list string) (edges : list (list string)) : Graph :=
  let nodeSet : gset string := foldl (λ s n, {[n]} ∪ s) ∅ nodes in
  let adj0 : gmap string (list string) := foldl (λ m n, <[n := []]> m) ∅ nodes in
  {| Nodes := nodes; Edges := Some (foldl (add_edge nodeSet) adj0 edges) |}.

(** [HasNode] reports whether the graph contains the given node. *)
Definition HasNode (g : Graph) (node : string) : bool :=
  match Edges g with
  | None => false
  | Some m => bool_decide (is_Some (m !! node))
  end.

(** ** Package business: the events (events.go) *)

(** A reply channel is known by its identity; [None] is the nil channel. *)
Definition chan := nat.

(** [Event] is [any] in the source: [update] acts on the two request types
    and ignores every other value. *)
Inductive Event :=
  | GraphUpdate (g : Graph) (Reply : option chan)
  | MeasurementUpdate (m : NodeMeasurement) (Reply : option chan)
  | OtherEvent.

(** What is sent on a reply channel. *)
Inductive Msg :=
  | Islands (islands : list (list string))
  | Totals (totals : list IslandMeasurement).

(** ** Package business: the grid *)

(** The fields are unexported: only [NewGrid] and [update] write them, and
    every index that [computeIslands] stores in [nodeToIsland] is
    [len(islands)] at the time it is stored. The [int] indices are therefore
    kept as naturals; [aggregate_int] below is [aggregate] over an arbitrary
    [int] index. *)
Record Grid := mkGrid {
  graph : Graph;
  islands : list (list string);
  nodeToIsland : gmap string nat;
  measurements : gmap string float
}.

(** [NewGrid] initializes an empty grid state. *)
Definition NewGrid : Grid :=
  {| graph := {| Nodes := []; Edges := Some ∅ |};
     islands := [];
     nodeToIsland := ∅;
     measurements := ∅ |}.

(** *** computeIslands *)

(** The loop over the neighbours of the node just visited: each one not yet
    visited is pushed. *)
Definition push_unvisited (visited : gset string) (neis stack : list string) : list string :=
  foldl (λ st nei, if decide (nei ∈ visited) then st else nei :: st) stack neis.

(** Termination measure of the traversal: the stack, plus the adjacency
    lists (and one unit each) of the keys not yet visited. *)
Definition adj_weight (adj : gmap string (list string)) (visited : gset string) : nat :=
  sum_list_with (λ kv : string * list string, S (List.length kv.2))
    (map_to_list (filter (λ kv : string * list string, kv.1 ∉ visited) adj)).

Definition dfs_measure (g : Graph) (stack : list string) (visited : gset string) : nat :=
  List.length stack + adj_weight (default ∅ (Edges g)) visited.

Lemma push_unvisited_length (visited : gset string) (neis stack : list string) :
  List.length (push_unvisited visited neis stack) ≤ List.length neis + List.length stack.
Proof.
  unfold push_unvisited. revert stack.
  induction neis as [|n neis IH]; intros stack; simpl; [lia|].
  destruct (decide (n ∈ visited)).
  - specialize (IH stack). lia.
  - specialize (IH (n :: stack)). simpl in IH. lia.
Qed.

Lemma filter_unvisited_visit (adj : gmap string (list string)) (visited : gset string) (v : string) :
  filter (λ kv : string * list string, kv.1 ∉ ({[v]} ∪ visited)) adj
  = delete v (filter (λ kv : string * list string, kv.1 ∉ visited) adj).
Proof.
  apply map_eq; intros k.
  rewrite lookup_delete, !map_lookup_filter.
  destruct (decide (v = k)) as [->|Hk]; destruct (adj !! k) as [x|]; simpl; try done.
  - rewrite option_guard_False; [done|]. rewrite elem_of_union, elem_of_singleton. tauto.
  - destruct (decide (k ∈ visited)) as [Hin|Hin].
    + rewrite !option_guard_False; [done| |]; simpl; [tauto|].
      rewrite elem_of_union. tauto.
    + rewrite !option_guard_True; [done| |]; simpl; [done|].
      rewrite elem_of_union, elem_of_singleton. intros [->|?]; tauto.
Qed.

Lemma adj_weight_visit (adj : gmap string (list string)) (visited : gset string) (v : string) :
  v ∉ visited →
  adj_weight adj ({[v]} ∪ visited) + List.length (default [] (adj !! v)) ≤ adj_weight adj visited.
Proof.
  intros Hv. unfold adj_weight. rewrite filter_unvisited_visit.
  set (m := filter (λ kv : string * list string, kv.1 ∉ visited) adj).
  destruct (adj !! v) as [l|] eqn:E; simpl.
  - assert (m !! v = Some l) as Hm by (by apply map_lookup_filter_Some).
    rewrite <- (map_to_list_delete m v l Hm). simpl. lia.
  - rewrite delete_id; [lia|].
    apply map_lookup_filter_None. by left.
Qed.

(** The inner loop of [computeIslands]: an iterative depth-first traversal
    from the nodes on [stack]. It returns the visited set and the island. *)
Equations? dfs (g : Graph) (stack : list string) (visited : gset string)
    (island : list string) : gset string * list string
    by wf (dfs_measure g stack visited) lt :=
  dfs g [] visited island := (visited, island);
  dfs g (v :: stack) visited island with decide (v ∈ visited) => {
    | left _ := dfs g stack visited island;
    | right _ :=
        dfs g (push_unvisited ({[v]} ∪ visited) (index (Edges g) v) stack)
            ({[v]} ∪ visited) (island ++ [v]) }.
Proof.
  - unfold dfs_measure. simpl. lia.
  - unfold dfs_measure. simpl.
    pose proof (push_unvisited_length ({[v]} ∪ visited) (index (Edges g) v) stack) as Hp.
    pose proof (adj_weight_visit (default ∅ (Edges g)) visited v n) as Hw.
    assert (index (Edges g) v = default [] (default ∅ (Edges g) !! v)) as Hi.
    { unfold index. destruct (Edges g); simpl; [done|]. by rewrite lookup_empty. }
    rewrite Hi in *. lia.
Qed.

(** The body of the loop over [g.Nodes]: an unvisited node starts a new
    island, whose nodes are then mapped to its index. *)
Definition visit_node (g : Graph)
    (st : gset string * list (list string) * gmap string nat) (n : string)
    : gset string * list (list string) * gmap string nat :=
  let '(visited, islands, nodeToIsland) := st in
  if decide (n ∈ visited) then st
  else
    let '(visited', island) := dfs g [n] visited [] in
    let idx := List.length islands in
    (visited', islands ++ [island],
     foldl (λ m node, <[node := idx]> m) nodeToIsland island).

(** [computeIslands] walks the graph and returns the connected components
    along with a reverse index from node name to island position. *)
Definition computeIslands (g : Graph) : list (list string) * gmap string nat :=
  let '(_, islands, nodeToIsland) := foldl (visit_node g) (∅, [], ∅) (Nodes g) in
  (islands, nodeToIsland).

(** *** aggregate *)

(** The body of the loop over the measurements: [totals[idx] += val] when
    the node has an island, [None] when [idx] is out of range. *)
Definition add_measurement (nodeToIsland : gmap string nat) (totals : list float)
    (kv : string * float) : option (list float) :=
  match nodeToIsland !! kv.1 with
  | Some idx => t ← totals !! idx; Some (<[idx := (t + kv.2)%float]> totals)
  | None => Some totals
  end.

Fixpoint sum_measurements (nodeToIsland : gmap string nat) (ord : list (string * float))
    (totals : list float) : option (list float) :=
  match ord with
  | [] => Some totals
  | kv :: rest =>
      totals' ← add_measurement nodeToIsland totals kv;
      sum_measurements nodeToIsland rest totals'
  end.

(** [aggregate] sums the latest measurement for each node into its island and
    returns one entry per island. [ord] is the order in which [range] visits
    [s.measurements]. The second loop reads [totals[i]] for every index of
    [s.islands]; both slices have that length. *)
Definition aggregate (ord : list (string * float)) (s : Grid) : option (list IslandMeasurement) :=
  totals ← sum_measurements (nodeToIsland s) ord (replicate (List.length (islands s)) 0%float);
  Some (zip_with mkIslandMeasurement (islands s) totals).

(** [nodeToIsland] is a [map[string]int]. The indices [computeIslands]
    produces are positions of [islands], which is why the state keeps them as
    naturals; a state built by hand can hold any [int], and [totals[idx]]
    panics for a negative index as it does for one past the end. This is
    [aggregate] over such an index. *)
Definition add_measurement_int (nodeToIsland : gmap string Z) (totals : list float)
    (kv : string * float) : option (list float) :=
  match nodeToIsland !! kv.1 with
  | Some idx =>
      if decide (idx < 0)%Z then None
      else t ← totals !! Z.to_nat idx; Some (<[Z.to_nat idx := (t + kv.2)%float]> totals)
  | None => Some totals
  end.

Fixpoint sum_measurements_int (nodeToIsland : gmap string Z) (ord : list (string * float))
    (totals : list float) : option (list float) :=
  match ord with
  | [] => Some totals
  | kv :: rest =>
      totals' ← add_measurement_int nodeToIsland totals kv;
      sum_measurements_int nodeToIsland rest totals'
  end.

Definition aggregate_int (ord : list (string * float)) (islands : list (list string))
    (nodeToIsland : gmap string Z) : option (list IslandMeasurement) :=
  totals ← sum_measurements_int nodeToIsland ord (replicate (List.length islands) 0%float);
  Some (zip_with mkIslandMeasurement islands totals).

(** *** update and Loop *)

(** [e.Reply <- m] when the reply channel is not nil. The slices sent are
    never written to afterwards: a topology update allocates new ones. *)
Definition send (reply : option chan) (m : Msg) : list (chan * Msg) :=
  match reply with
  | Some c => [(c, m)]
  | None => []
  end.

Definition store (s : Grid) (node : string) (value : float) : Grid :=
  {| graph := graph s; islands := islands s; nodeToIsland := nodeToIsland s;
     measurements := <[node := value]> (measurements s) |}.

(** [update] applies one event: the new state and what was sent. *)
Definition update (ord : list (string * float)) (s : Grid) (evt : Event)
    : option (Grid * list (chan * Msg)) :=
  match evt with
  | GraphUpdate g reply =>
      let '(islands', nodeToIsland') := computeIslands g in
      let s' := {| graph := g; islands := islands'; nodeToIsland := nodeToIsland';
                   measurements := measurements s |} in
      Some (s', send reply (Islands (islands s')))
  | MeasurementUpdate e reply =>
      let s' := if HasNode (graph s) (Node e) then store s (Node e) (Value e) else s in
      totals ← aggregate ord s';
      Some (s', send reply (Totals totals))
  | OtherEvent => Some (s, [])
  end.

(** What one [select] of [Loop] yields: the context is done, the channel is
    closed, or an event is received (with the iteration order that its
    processing will use). *)
Inductive Selected :=
  | CtxDone
  | Closed
  | Recv (e : Event) (ord : list (string * float)).

(** [Loop] processes events serially until the context is done or the
    channel closes; a trace that ends leaves the loop waiting. *)
Fixpoint Loop (s : Grid) (trace : list Selected) : option (Grid * list (chan * Msg)) :=
  match trace with
  | [] => Some (s, [])
  | CtxDone :: _ => Some (s, [])
  | Closed :: _ => Some (s, [])
  | Recv e ord :: rest =>
      '(s', out) ← update ord s e;
      '(s'', outs) ← Loop s' rest;
      Some (s'', out ++ outs)
  end.

End Business.

Module Api.

(** ** Package api: the final [select] of the two handlers

    The model starts where both handlers reach their "Send Response" block,
    with the event built. Time is in nanoseconds, as [time.Duration], from
    the moment the handler enters its outer [select]. *)

(** [time.Millisecond] and the status codes of [net/http]. *)
Definition Millisecond : N := 1000000.
Definition StatusOK : nat := 200.
Definition StatusRequestTimeout : nat := 408.
Definition StatusTooManyRequests : nat := 429.

Definition backpressureTimeout : N := 20 * Millisecond.

(** What a handler meets: when the send on the event channel can proceed,
    when the request context is done, and when the reply is available
    ([None]: never). *)
Record Env := mkEnv { slot : option N; done : option N; reply : option N }.

(** A [select] entered at time [now]: each case carries the time from which
    its communication can proceed. The statement blocks until the earliest
    such time and then runs one of the cases that can proceed at that time;
    with no case that ever can, it blocks forever ([None]). *)
Definition ready_at {A} (now : N) (c : option N * A) : option N := N.max now <$> c.1.

Definition select {A} (now : N) (cases : list (option N * A)) : option (N * list A) :=
  match omap (ready_at now) cases with
  | [] => None
  | t :: ts =>
      let first := foldr N.min t ts in
      Some (first, (filter (λ c, ready_at now c = Some first) cases).*2)
  end.

(** The cases of the outer [select]. *)
Inductive Attempt := Enqueued | Busy | Cancelled.

(** What a caller observes of a handler. *)
Inductive Outcome :=
  | Responds (at_time : N) (status : nat)
  | Blocks.

Definition graphHandler_select (env : Env) : option (N * list Attempt) :=
  select 0 [(slot env, Enqueued); (done env, Cancelled)].

Definition measurementsHandler_select (env : Env) : option (N * list Attempt) :=
  select 0 [(slot env, Enqueued); (Some backpressureTimeout, Busy); (done env, Cancelled)].

(** The inner [select], entered once the event is enqueued. *)
Definition await_reply (env : Env) (now : N) : list Outcome :=
  match select now [(reply env, StatusOK); (done env, StatusRequestTimeout)] with
  | Some (t, statuses) => Responds t <$> statuses
  | None => [Blocks]
  end.

Definition respond (env : Env) (now : N) (a : Attempt) : list Outcome :=
  match a with
  | Enqueued => await_reply env now
  | Busy => [Responds now StatusTooManyRequests]
  | Cancelled => [Responds now StatusRequestTimeout]
  end.

(** The behaviours a handler can show in [env]. *)
Definition graphHandler (env : Env) : list Outcome :=
  match graphHandler_select env with
  | Some (t, attempts) => attempts ≫= respond env t
  | None => [Blocks]
  end.

Definition measurementsHandler (env : Env) : list Outcome :=
  match measurementsHandler_select env with
  | Some (t, attempts) => attempts ≫= respond env t
  | None => [Blocks]
  end.

End Api.

Module Foundation.

Import Stdlib.Strings.Ascii.

(** ** Package foundation: middleware

    A handler is seen by what it answers to a request. [http.Error] with the
    standard text of a status code is [HttpError]; anything the wrapped
    handler itself produces is [Served]. A header that is absent reads as the
    empty string, as with [Header.Get]. *)

Record Request := mkRequest {
  Method : string;
  ContentType : string;
  XForwardedFor : string;
  RemoteAddr : string
}.

Inductive Response (A : Type) :=
  | HttpError (code : nat)
  | Served (a : A).
Arguments HttpError {A} code.
Arguments Served {A} a.

Definition Handler (A : Type) : Type := Request → Response A.

(** A middleware is a function value, possibly nil ([None]). *)
Definition Middleware (A : Type) : Type := option (Handler A → Handler A).

Definition StatusMethodNotAllowed : nat := 405.
Definition StatusUnsupportedMediaType : nat := 415.

(** The loop of [WrapMiddleware]: [i] runs from [len(mw) - 1] down to 0;
    here [wrap_loop (S i)] is the iteration with index [i]. *)
Fixpoint wrap_loop {A} (n : nat) (mw : list (Middleware A)) (handler : Handler A) : Handler A :=
  match n with
  | 0 => handler
  | S i =>
      wrap_loop i mw
        (match mw !! i with
         | Some (Some mwFunc) => mwFunc handler
         | _ => handler
         end)
  end.

(** [WrapMiddleware] creates a new handler by wrapping middleware around a
    final handler. *)
Definition WrapMiddleware {A} (handler : Handler A) (mw : list (Middleware A)) : Handler A :=
  wrap_loop (List.length mw) mw handler.

(** [RequireMethod] enforces an HTTP method. *)
Definition RequireMethod {A} (method : string) : Handler A → Handler A :=
  λ next r,
    if decide (Method r ≠ method) then HttpError StatusMethodNotAllowed
    else next r.

(** [RequireJSONContentType] enforces an application/json Content-Type.
    [ParseMediaType] stands for [mime.ParseMediaType]: the media type, or
    [None] for an error. *)
Definition RequireJSONContentType {A} (ParseMediaType : string → option string)
    : Handler A → Handler A :=
  λ next r,
    match ParseMediaType (ContentType r) with
    | Some mediaType =>
        if decide (mediaType ≠ "application/json"%string)
        then HttpError StatusUnsupportedMediaType
        else next r
    | None => HttpError StatusUnsupportedMediaType
    end.

(** The loop of [remoteIP] over the bytes of X-Forwarded-For: the part
    before the first comma, or the whole string when there is none. *)
Fixpoint first_hop (xff : string) : string :=
  match xff with
  | EmptyString => EmptyString
  | String c rest => if decide (c = ","%char) then EmptyString else String c (first_hop rest)
  end.

(** [remoteIP]: [SplitHostPort] stands for [net.SplitHostPort], giving the
    host or [None] for an error. *)
Definition remoteIP (SplitHostPort : string → option string) (r : Request) : string :=
  if decide (XForwardedFor r ≠ ""%string) then first_hop (XForwardedFor r)
  else
    match SplitHostPort (RemoteAddr r) with
    | Some host => host
    | None => RemoteAddr r
    end.

End Foundation.

Module Routes.

(** ** Package api: what [All] registers for "/graph" and "/measurements"

    Each handler is wrapped with [RequireMethod(http.MethodPost)] and
    [RequireJSONContentType], in this order. *)
Definition MethodPost : string := "POST".

Definition route {A} (ParseMediaType : string → option string)
    (handler : Foundation.Handler A) : Foundation.Handler A :=
  Foundation.WrapMiddleware handler
    [Some (Foundation.RequireMethod MethodPost);
     Some (Foundation.RequireJSONContentType ParseMediaType)].

End Routes.

Module Client.

(** ** Command client: the random graph of the load generator *)

Record GraphPayload := mkGraphPayload {
  Nodes : list string;
  Edges : list (list string)
}.

(** [rng.Intn(n)]: it panics when [n <= 0]; otherwise the [calls]-th call
    gives some value below [n], here the [calls]-th value of the stream
    [rng] reduced modulo [n]. *)
Definition Intn (rng : nat → nat) (calls : nat) (n : nat) : option nat :=
  if decide (n = 0) then None else Some (rng calls mod n).

(** The loop [for range edgeCount]: two draws per iteration, and the edge is
    kept when its endpoints differ. *)
Fixpoint random_edges (rng : nat → nat) (nodes : list string) (count calls : nat)
    (edges : list (list string)) : option (list (list string)) :=
  match count with
  | 0 => Some edges
  | S count' =>
      i ← Intn rng calls (List.length nodes);
      a ← nodes !! i;
      j ← Intn rng (S calls) (List.length nodes);
      b ← nodes !! j;
      random_edges rng nodes count' (S (S calls))
        (if decide (a ≠ b) then edges ++ [[a; b]] else edges)
  end.

(** [buildRandomGraph]: nodes "N0", "N1", ... and random edges.
    [make([]string, 0, nodeCount)] panics (cap out of range) when the
    capacity is negative and when it is more than the run time allocates,
    [max_cap] being the largest capacity it does allocate for a [[]string] on
    the platform at hand; a loop over a count that is not positive does not
    run. *)
Definition buildRandomGraph (max_cap : Z) (rng : nat → nat) (nodeCount edgeCount : Z)
    : option GraphPayload :=
  if decide (nodeCount < 0 ∨ max_cap < nodeCount)%Z then None
  else
    let nodes := (λ i : nat, "N" +:+ pretty i) <$> seq 0 (Z.to_nat nodeCount) in
    edges ← random_edges rng nodes (Z.to_nat edgeCount) 0 [];
    Some {| Nodes := nodes; Edges := edges |}.

End Client.

Import Business.

(** * The builder: [NewGraph] and [HasNode] *)

Section Builder.

Implicit Types (nodes : list string) (edges : list (list string)).
Implicit Types (adj : gmap string (list string)) (edge : list string).

(** What the spec says one input edge contributes to the neighbours of [n]:
    nothing unless it names exactly two endpoints, both declared; otherwise
    edge (A,B) adds B to A's neighbours and A to B's neighbours. *)
Definition edge_contrib nodes (n : string) edge : list string :=
  match edge with
  | [a; b] =>
      if decide (a ∈ nodes ∧ b ∈ nodes)
      then (if decide (a = n) then [b] else []) ++ (if decide (b = n) then [a] else [])
      else []
  | _ => []
  end.

(** The neighbours of [n] by the spec: the contributions of the edges, in
    input order. *)
Definition neighbours nodes edges (n : string) : list string :=
  concat (edge_contrib nodes n <$> edges).

(** An edge the builder drops: not exactly two endpoints, or an endpoint
    that is not declared. *)
Definition dropped nodes edge : Prop :=
  List.length edge ≠ 2 ∨ ∃ x, x ∈ edge ∧ x ∉ nodes.

Lemma nodeSet_elem nodes (acc : gset string) (x : string) :
  x ∈ foldl (λ s n, {[n]} ∪ s) acc nodes ↔ x ∈ acc ∨ x ∈ nodes.
Proof.
  revert acc. induction nodes as [|n nodes IH]; intros acc; simpl.
  - rewrite elem_of_nil. tauto.
  - rewrite IH, elem_of_union, elem_of_singleton, elem_of_cons. tauto.
Qed.

Lemma adj0_lookup nodes adj (k : string) :
  foldl (λ m n, <[n := []]> m) adj nodes !! k
  = if decide (k ∈ nodes) then Some [] else adj !! k.
Proof.
  revert adj. induction nodes as [|n nodes IH]; intros adj; simpl.
  - destruct (decide (k ∈ [])) as [H|H]; [by apply elem_of_nil in H|done].
  - rewrite IH. destruct (decide (k ∈ nodes)) as [H|H].
    + rewrite decide_True; [done|]. by apply elem_of_cons; right.
    + destruct (decide (k = n)) as [->|Hk].
      * rewrite lookup_insert_eq, decide_True; [done|]. by apply elem_of_cons; left.
      * rewrite lookup_insert_ne by done. rewrite decide_False; [done|].
        rewrite elem_of_cons. tauto.
Qed.

Lemma edge_contrib_dropped nodes n edge :
  dropped nodes edge → edge_contrib nodes n edge = [].
Proof.
  intros [Hlen|(x & Hx & Hn)]; destruct edge as [|a [|b [|c rest]]]; simpl in *; try done.
  rewrite decide_False; [done|]. intros [Ha Hb].
  rewrite !elem_of_cons, elem_of_nil in Hx. naive_solver.
Qed.

Lemma add_edge_dropped nodes (nodeSet : gset string) adj edge :
  (∀ x, x ∈ nodeSet ↔ x ∈ nodes) →
  dropped nodes edge → add_edge nodeSet adj edge = adj.
Proof.
  intros HS [Hlen|(x & Hx & Hn)]; destruct edge as [|a [|b [|c rest]]]; simpl in *; try done.
  rewrite !elem_of_cons, elem_of_nil in Hx.
  destruct (decide (a ∈ nodeSet)) as [Ha|]; [|done].
  destruct (decide (b ∈ nodeSet)) as [Hb|]; [|done].
  apply HS in Ha, Hb. naive_solver.
Qed.

(** One iteration of the loop over the edges, seen from key [n]. *)
Lemma add_edge_lookup nodes (nodeSet : gset string) adj edge (n : string) :
  (∀ x, x ∈ nodeSet ↔ x ∈ nodes) →
  (∀ x, is_Some (adj !! x) ↔ x ∈ nodes) →
  add_edge nodeSet adj edge !! n = (λ l, l ++ edge_contrib nodes n edge) <$> adj !! n.
Proof.
  intros HS Hdom.
  assert (∀ o : option (list string), o = (λ l, l ++ []) <$> o) as Hnil.
  { intros [l|]; simpl; [by rewrite app_nil_r|done]. }
  destruct edge as [|a [|b [|c rest]]]; simpl; try apply Hnil.
  destruct (decide (a ∈ nodeSet)) as [Ha|Ha].
  2:{ rewrite decide_False; [apply Hnil|]. rewrite <- HS. tauto. }
  destruct (decide (b ∈ nodeSet)) as [Hb|Hb].
  2:{ rewrite decide_False; [apply Hnil|]. rewrite <- (HS b). tauto. }
  rewrite decide_True by (by rewrite <- !HS).
  apply HS, Hdom in Ha as [la Hla]. apply HS, Hdom in Hb as [lb Hlb].
  rewrite Hla. simpl.
  destruct (decide (b = n)) as [->|Hbn].
  - rewrite lookup_insert_eq.
    destruct (decide (a = n)) as [->|Han].
    + rewrite lookup_insert_eq, Hla. simpl. by rewrite <- app_assoc.
    + rewrite lookup_insert_ne, Hlb by done. done.
  - rewrite lookup_insert_ne by done.
    destruct (decide (a = n)) as [->|Han].
    + rewrite lookup_insert_eq, Hla. done.
    + rewrite lookup_insert_ne by done. apply Hnil.
Qed.

Lemma add_edges_lookup nodes (nodeSet : gset string) adj edges (n : string) :
  (∀ x, x ∈ nodeSet ↔ x ∈ nodes) →
  (∀ x, is_Some (adj !! x) ↔ x ∈ nodes) →
  foldl (add_edge nodeSet) adj edges !! n
  = (λ l, l ++ neighbours nodes edges n) <$> adj !! n.
Proof.
  intros HS. unfold neighbours. revert adj.
  induction edges as [|e edges IH]; intros adj Hdom; simpl.
  - destruct (adj !! n); simpl; [by rewrite app_nil_r|done].
  - rewrite IH.
    + rewrite (add_edge_lookup nodes) by done.
      destruct (adj !! n); simpl; [by rewrite <- app_assoc|done].
    + intros x. rewrite (add_edge_lookup nodes) by done.
      rewrite <- Hdom. rewrite fmap_is_Some. done.
Qed.

(** The adjacency of a built graph, key by key. *)
Lemma NewGraph_lookup nodes edges :
  ∃ adj, Edges (NewGraph nodes edges) = Some adj ∧
    ∀ n, adj !! n = if decide (n ∈ nodes) then Some (neighbours nodes edges n) else None.
Proof.
  unfold NewGraph. simpl. eexists. split; [done|]. intros n.
  rewrite (add_edges_lookup nodes).
  - rewrite adj0_lookup. destruct (decide (n ∈ nodes)); simpl; [done|].
    by rewrite lookup_empty.
  - intros x. rewrite nodeSet_elem. set_solver.
  - intros x. rewrite adj0_lookup. destruct (decide (x ∈ nodes)).
    + split; [done|]. intros _. by eexists.
    + rewrite lookup_empty. split; [by intros [? ?]|done].
Qed.

(** C4: [NewGraph] is total and keeps the node list; its adjacency has an
    entry for exactly the declared nodes, holding the neighbours the spec
    gives them (an edge that does not have exactly two endpoints, or has an
    undeclared endpoint, contributes nothing; edge (A,B) adds B to A's list
    and A to B's list; a node without neighbours has the empty list); and
    removing a dropped edge from the input leaves the built graph unchanged. *)
Theorem NewGraph_builds_adjacency nodes edges :
  Nodes (NewGraph nodes edges) = nodes ∧
  (∃ adj, Edges (NewGraph nodes edges) = Some adj ∧
     ∀ n, adj !! n = if decide (n ∈ nodes) then Some (neighbours nodes edges n) else None) ∧
  (∀ es1 e es2, edges = es1 ++ e :: es2 → dropped nodes e →
     NewGraph nodes edges = NewGraph nodes (es1 ++ es2)) ∧
  (∀ es a b, edges = es ++ [[a; b]] → a ∈ nodes → b ∈ nodes →
     neighbours nodes edges a = neighbours nodes es a ++ [b] ++ (if decide (b = a) then [a] else []) ∧
     neighbours nodes edges b = neighbours nodes es b ++ (if decide (a = b) then [b] else []) ++ [a] ∧
     ∀ n, n ≠ a → n ≠ b → neighbours nodes edges n = neighbours nodes es n).
Proof.
  split; [done|]. split; [apply NewGraph_lookup|]. split.
  - intros es1 e es2 -> Hd. unfold NewGraph. do 2 f_equal.
    rewrite !foldl_app. simpl. rewrite (add_edge_dropped nodes); [done| |done].
    intros x. rewrite nodeSet_elem. set_solver.
  - intros es a b -> Ha Hb.
    assert (∀ n, neighbours nodes (es ++ [[a; b]]) n
                 = neighbours nodes es n
                   ++ (if decide (a = n) then [b] else []) ++ (if decide (b = n) then [a] else []))
      as Hsnoc.
    { intros n. unfold neighbours. rewrite fmap_app, concat_app. simpl.
      rewrite (decide_True (P := a ∈ nodes ∧ b ∈ nodes)) by done.
      by rewrite app_nil_r. }
    split; [|split].
    + rewrite Hsnoc. by rewrite (decide_True (P := a = a)) by done.
    + rewrite Hsnoc. by rewrite (decide_True (P := b = b)) by done.
    + intros n Hna Hnb. rewrite Hsnoc.
      rewrite (decide_False (P := a = n)), (decide_False (P := b = n)) by done.
      by rewrite app_nil_r.
Qed.

(** C8: on a built graph, [HasNode id] holds exactly when [id] occurs in the
    declared node list; an identifier that is only an endpoint of an input
    edge is not a node. *)
Theorem HasNode_NewGraph nodes edges (id : string) :
  (HasNode (NewGraph nodes edges) id = true ↔ id ∈ nodes) ∧
  (∀ e, e ∈ edges → id ∈ e → id ∉ nodes → HasNode (NewGraph nodes edges) id = false).
Proof.
  assert (HasNode (NewGraph nodes edges) id = true ↔ id ∈ nodes) as H.
  { destruct (NewGraph_lookup nodes edges) as (adj & HE & Hadj).
    unfold HasNode. rewrite HE, bool_decide_eq_true, Hadj.
    destruct (decide (id ∈ nodes)); split; try done; first [by eexists|by intros [? ?]]. }
  split; [apply H|].
  intros e _ _ Hid. apply not_true_is_false. by rewrite H.
Qed.

End Builder.

(** * The component finder: [computeIslands] *)

Section Finder.

Implicit Types (g : Graph) (stack island new : list string) (visited : gset string).

Lemma push_unvisited_elem visited (neis stack : list string) (x : string) :
  x ∈ push_unvisited visited neis stack ↔ x ∈ stack ∨ (x ∈ neis ∧ x ∉ visited).
Proof.
  unfold push_unvisited. revert stack.
  induction neis as [|n neis IH]; intros stack; simpl.
  - rewrite elem_of_nil. tauto.
  - rewrite IH. destruct (decide (n ∈ visited)) as [Hn|Hn];
      rewrite ?elem_of_cons; naive_solver.
Qed.

(** The traversal appends to the island a duplicate-free list [new] of
    nodes that were not visited, marks exactly those visited, leaves no
    node of the stack unvisited, and reaches only nodes of the stack or of
    an adjacency list. *)
Lemma dfs_spec g stack visited island :
  ∃ new, dfs g stack visited island = (list_to_set new ∪ visited, island ++ new) ∧
    NoDup new ∧
    (∀ x, x ∈ new → x ∉ visited) ∧
    (∀ x, x ∈ stack → x ∈ visited ∨ x ∈ new) ∧
    (∀ x, x ∈ new → x ∈ stack ∨ ∃ v, x ∈ index (Edges g) v).
Proof.
  funelim (dfs g stack visited island).
  - exists []. rewrite app_nil_r. simpl. split; [f_equal; set_solver|].
    split; [constructor|]. set_solver.
  - destruct H as (new & Hd & Hnd & Hfresh & Hstack & Hreach).
    exists new. split; [done|]. split; [done|]. split; [done|]. split.
    + intros x [->|Hx]%elem_of_cons; [by left|by apply Hstack].
    + intros x Hx. destruct (Hreach x Hx) as [?|?]; [left|by right].
      by apply elem_of_cons; right.
  - destruct H as (new & Hd & Hnd & Hfresh & Hstack & Hreach).
    exists (v :: new). split.
    { rewrite Hd. f_equal; [|by rewrite <- app_assoc].
      apply set_eq. intros x. rewrite list_to_set_cons. set_solver. }
    split.
    { apply NoDup_cons. split; [|done]. intros Hv. apply Hfresh in Hv. set_solver. }
    split.
    { intros x [->|Hx]%elem_of_cons; [done|]. apply Hfresh in Hx. set_solver. }
    split.
    + intros x [->|Hx]%elem_of_cons; [right; by apply elem_of_cons; left|].
      destruct (Hstack x) as [Hv|Hn].
      * apply push_unvisited_elem. by left.
      * apply elem_of_union in Hv as [->%elem_of_singleton|Hv];
          [right; by apply elem_of_cons; left|by left].
      * right. by apply elem_of_cons; right.
    + intros x [->|Hx]%elem_of_cons; [left; by apply elem_of_cons; left|].
      destruct (Hreach x Hx) as [Hp|?]; [|by right].
      apply push_unvisited_elem in Hp as [Hs|[Hn _]].
      * left. by apply elem_of_cons; right.
      * right. by exists v.
Qed.

Lemma elem_of_concat {A} (l : list (list A)) (x : A) :
  x ∈ concat l ↔ ∃ i c, l !! i = Some c ∧ x ∈ c.
Proof.
  induction l as [|c l IH]; simpl.
  - rewrite elem_of_nil. split; [done|]. by intros (i & c & ? & _).
  - rewrite elem_of_app, IH. split.
    + intros [Hx|(i & c' & Hi & Hx)]; [by exists 0, c|by exists (S i), c'].
    + intros ([|i] & c' & Hi & Hx); simpl in Hi; [left; congruence|right; eauto].
Qed.

(** In a duplicate-free concatenation the pieces are duplicate-free and
    an element determines its piece. *)
Lemma NoDup_concat_lookup {A} (l : list (list A)) :
  NoDup (concat l) →
  (∀ i c, l !! i = Some c → NoDup c) ∧
  (∀ i j ci cj x, l !! i = Some ci → l !! j = Some cj → x ∈ ci → x ∈ cj → i = j).
Proof.
  induction l as [|c l IH]; simpl; [done|].
  intros (Hc & Hdisj & Hl)%NoDup_app. destruct (IH Hl) as [IH1 IH2]. split.
  - intros [|i] c' Hi; simpl in Hi; [congruence|eauto].
  - intros [|i] [|j] ci cj x Hi Hj Hxi Hxj; simpl in *; simplify_eq; try done.
    + exfalso. apply (Hdisj x Hxi). apply elem_of_concat. eauto.
    + exfalso. apply (Hdisj x Hxj). apply elem_of_concat. eauto.
    + f_equal. eauto.
Qed.

(** The loop that maps each node of the new island to its index. *)
Lemma index_island_lookup (island : list string) (idx : nat) (m : gmap string nat) (x : string) :
  foldl (λ m node, <[node := idx]> m) m island !! x
  = if decide (x ∈ island) then Some idx else m !! x.
Proof.
  revert m. induction island as [|n island IH]; intros m; simpl.
  - destruct (decide (x ∈ [])) as [H|H]; [by apply elem_of_nil in H|done].
  - rewrite IH. destruct (decide (x ∈ island)) as [H|H].
    + rewrite decide_True; [done|]. by apply elem_of_cons; right.
    + destruct (decide (x = n)) as [->|Hx].
      * rewrite lookup_insert_eq, decide_True; [done|]. by apply elem_of_cons; left.
      * rewrite lookup_insert_ne by done. rewrite decide_False; [done|].
        rewrite elem_of_cons. tauto.
Qed.

(** The invariant of the loop over [g.Nodes]. *)
Definition islands_inv g (st : gset string * list (list string) * gmap string nat) : Prop :=
  let '(visited, islands, nodeToIsland) := st in
  (∀ x, x ∈ visited ↔ x ∈ concat islands) ∧
  NoDup (concat islands) ∧
  (∀ x i, nodeToIsland !! x = Some i ↔ ∃ c, islands !! i = Some c ∧ x ∈ c) ∧
  (∀ x, x ∈ concat islands → x ∈ Nodes g ∨ ∃ v, x ∈ index (Edges g) v).

Lemma visit_node_inv g st (n : string) :
  n ∈ Nodes g → islands_inv g st →
  islands_inv g (visit_node g st n) ∧
  (∀ x, x ∈ st.1.1 ∨ x = n → x ∈ (visit_node g st n).1.1).
Proof.
  destruct st as [[visited isl] n2i]. intros Hn (Hvis & Hnd & Hidx & Hreach).
  unfold visit_node. destruct (decide (n ∈ visited)) as [Hin|Hin].
  { split; [done|]. simpl. by intros x [?| ->]. }
  destruct (dfs_spec g [n] visited []) as (new & -> & Hnew & Hfresh & Hstack & Hr).
  simpl. split; [split; [|split; [|split]]|].
  - intros x. rewrite concat_app, elem_of_app. simpl. rewrite app_nil_r.
    rewrite elem_of_union, elem_of_list_to_set, Hvis. tauto.
  - rewrite concat_app. simpl. rewrite app_nil_r. apply NoDup_app.
    split; [done|]. split; [|done]. intros x Hx%Hvis Hx'. by apply (Hfresh x).
  - intros x i. rewrite index_island_lookup.
    destruct (decide (x ∈ new)) as [Hx|Hx]; split.
    + intros [= <-]. exists new. split; [|done].
      by rewrite lookup_app_r, Nat.sub_diag by lia.
    + intros (c & Hc & Hxc). f_equal.
      apply lookup_app_Some in Hc as [Hc|[Hlen Hc]].
      * exfalso. apply (Hfresh x Hx), Hvis, elem_of_concat. eauto.
      * destruct (i - List.length isl) as [|k] eqn:E; simpl in Hc; [lia|done].
    + intros (c & Hc & Hxc)%Hidx. exists c. split; [|done].
      by apply lookup_app_l_Some.
    + intros (c & Hc & Hxc). apply Hidx. exists c. split; [|done].
      apply lookup_app_Some in Hc as [Hc|[Hlen Hc]]; [done|].
      destruct (i - List.length isl) as [|k]; simpl in Hc; [|done].
      by simplify_eq.
  - intros x. rewrite concat_app, elem_of_app. simpl. rewrite app_nil_r.
    intros [Hx|Hx]; [by apply Hreach|].
    destruct (Hr x Hx) as [->%list_elem_of_singleton|?]; [by left|by right].
  - intros x [Hx| ->]; apply elem_of_union; [by right|].
    destruct (Hstack n) as [?|?]; [by apply list_elem_of_singleton|done|].
    left. by apply elem_of_list_to_set.
Qed.

Lemma visit_nodes_inv g (ns : list string) st :
  (∀ n, n ∈ ns → n ∈ Nodes g) → islands_inv g st →
  islands_inv g (foldl (visit_node g) st ns) ∧
  (∀ x, x ∈ st.1.1 ∨ x ∈ ns → x ∈ (foldl (visit_node g) st ns).1.1).
Proof.
  revert st. induction ns as [|n ns IH]; intros st Hns Hinv; simpl.
  - split; [done|]. intros x [?|[]%elem_of_nil]. done.
  - destruct (visit_node_inv g st n) as [Hinv' Hmono].
    { apply Hns. by apply elem_of_cons; left. }
    { done. }
    destruct (IH (visit_node g st n)) as [Hinv'' Hmono''].
    { intros m Hm. apply Hns. by apply elem_of_cons; right. }
    { done. }
    split; [done|]. intros x [Hx|[->|Hx]%elem_of_cons]; apply Hmono''; auto.
Qed.

(** What [computeIslands] returns on any graph. *)
Lemma computeIslands_spec g :
  NoDup (concat (computeIslands g).1) ∧
  (∀ x i, (computeIslands g).2 !! x = Some i
          ↔ ∃ c, (computeIslands g).1 !! i = Some c ∧ x ∈ c) ∧
  (∀ x, x ∈ Nodes g → x ∈ concat (computeIslands g).1) ∧
  (∀ x, x ∈ concat (computeIslands g).1 → x ∈ Nodes g ∨ ∃ v, x ∈ index (Edges g) v).
Proof.
  unfold computeIslands.
  destruct (visit_nodes_inv g (Nodes g) (∅, [], ∅)) as [Hinv Hall]; [done| |].
  { split; [|split; [constructor|split]]; simpl.
    - intros x. rewrite elem_of_nil. set_solver.
    - intros x i. rewrite lookup_empty. split; [done|]. by intros (c & ? & _).
    - by intros x ?%elem_of_nil. }
  destruct (foldl (visit_node g) (∅, [], ∅) (Nodes g)) as [[visited isl] n2i].
  destruct Hinv as (Hvis & Hnd & Hidx & Hreach). simpl in *.
  split; [done|]. split; [done|]. split; [|done].
  intros x Hx. apply Hvis, Hall. by right.
Qed.

End Finder.

(** * Partition completeness on built topologies *)

Section Partition.

Lemma neighbours_declared (nodes : list string) (edges : list (list string)) (n x : string) :
  x ∈ neighbours nodes edges n → x ∈ nodes.
Proof.
  unfold neighbours. induction edges as [|e edges IH]; simpl.
  - by intros ?%elem_of_nil.
  - intros [Hx|Hx]%elem_of_app; [|by apply IH].
    destruct e as [|a [|b [|c rest]]]; simpl in Hx; try by apply elem_of_nil in Hx.
    destruct (decide (a ∈ nodes ∧ b ∈ nodes)) as [[Ha Hb]|]; [|by apply elem_of_nil in Hx].
    apply elem_of_app in Hx as [Hx|Hx]; case_decide;
      try (by apply elem_of_nil in Hx); by apply list_elem_of_singleton in Hx as ->.
Qed.

Lemma NewGraph_index_declared (nodes : list string) (edges : list (list string)) (v x : string) :
  x ∈ index (Edges (NewGraph nodes edges)) v → x ∈ nodes.
Proof.
  destruct (NewGraph_lookup nodes edges) as (adj & -> & Hadj). simpl.
  rewrite Hadj. destruct (decide (v ∈ nodes)); simpl.
  - apply neighbours_declared.
  - by intros ?%elem_of_nil.
Qed.

(** C3: on every built topology the partition is complete. Every declared
    node lies in a component, and in only one; the nodes of the components
    are exactly the declared nodes; the concatenation of the components has
    no duplicate, so no component repeats a node and no two components share
    one; and the index maps a node to [i] exactly when component [i]
    contains it. *)
Theorem computeIslands_partition (nodes : list string) (edges : list (list string)) :
  let P := computeIslands (NewGraph nodes edges) in
  (∀ x, x ∈ nodes →
     ∃ i c, P.1 !! i = Some c ∧ x ∈ c ∧
            ∀ j c', P.1 !! j = Some c' → x ∈ c' → j = i) ∧
  (∀ x, x ∈ concat P.1 ↔ x ∈ nodes) ∧
  NoDup (concat P.1) ∧
  (∀ i c, P.1 !! i = Some c → NoDup c) ∧
  (∀ i j ci cj x, P.1 !! i = Some ci → P.1 !! j = Some cj → x ∈ ci → x ∈ cj → i = j) ∧
  (∀ x i, P.2 !! x = Some i ↔ ∃ c, P.1 !! i = Some c ∧ x ∈ c).
Proof.
  intros P. subst P.
  destruct (computeIslands_spec (NewGraph nodes edges)) as (Hnd & Hidx & Hall & Hreach).
  destruct (NoDup_concat_lookup _ Hnd) as [Hnd1 Hnd2].
  split; [|split; [|split; [|split; [|split]]]]; try done.
  - intros x Hx. apply Hall, elem_of_concat in Hx as (i & c & Hi & Hxc).
    exists i, c. split; [done|]. split; [done|].
    intros j c' Hj Hxc'. by apply (Hnd2 j i c' c x).
  - intros x. split; [|apply Hall].
    intros [Hx|[v Hx]]%Hreach; [done|]. by apply NewGraph_index_declared in Hx.
Qed.

End Partition.

(** * The aggregator: [aggregate] *)

Section Aggregator.

Implicit Types (ord : list (string * float)) (totals : list float).
Implicit Types (n2i : gmap string nat) (M : gmap string float) (c : list string).

(** A sum of floats: the running total starts at zero and the values are
    added from the left, one at a time. *)
Definition fsum (l : list float) : float := foldl PrimFloat.add 0%float l.

(** The stored values of the nodes of component [c], in iteration order. *)
Definition measured_in ord c : list float :=
  (filter (λ kv : string * float, kv.1 ∈ c) ord).*2.

(** A state is coherent when every index of [nodeToIsland] is a position of
    [islands]. *)
Definition coherent (s : Grid) : Prop :=
  ∀ x i, nodeToIsland s !! x = Some i → i < List.length (islands s).

(** The first loop of [aggregate]: no index is out of range, and slot [i]
    receives, in iteration order, the values of the nodes indexed [i]. *)
Lemma sum_measurements_spec n2i ord totals :
  (∀ x i, n2i !! x = Some i → i < List.length totals) →
  ∃ totals', sum_measurements n2i ord totals = Some totals' ∧
    List.length totals' = List.length totals ∧
    ∀ i t, totals !! i = Some t →
      totals' !! i
      = Some (foldl PrimFloat.add t (filter (λ kv : string * float, n2i !! kv.1 = Some i) ord).*2).
Proof.
  revert totals. induction ord as [|[k v] ord IH]; intros totals Hrange; simpl.
  - by exists totals.
  - unfold add_measurement. simpl. destruct (n2i !! k) as [idx|] eqn:Hk; simpl.
    + destruct (lookup_lt_is_Some_2 totals idx (Hrange k idx Hk)) as [t0 Ht0].
      rewrite Ht0. simpl.
      destruct (IH (<[idx := (t0 + v)%float]> totals)) as (totals' & -> & Hlen & Hsum).
      { intros x i Hx. rewrite length_insert. by apply (Hrange x). }
      exists totals'. split; [done|]. split; [by rewrite Hlen, length_insert|].
      intros i t Hi. destruct (decide (idx = i)) as [->|Hne].
      * rewrite (Hsum i (t0 + v)%float).
        2:{ apply list_lookup_insert_eq. by apply lookup_lt_is_Some_1. }
        rewrite filter_cons_True by done. simpl. by simplify_eq.
      * rewrite (Hsum i t) by (by rewrite list_lookup_insert_ne).
        rewrite filter_cons_False; [done|]. simpl. congruence.
    + destruct (IH totals Hrange) as (totals' & -> & Hlen & Hsum).
      exists totals'. split; [done|]. split; [done|].
      intros i t Hi. rewrite (Hsum i t Hi).
      rewrite filter_cons_False; [done|]. simpl. congruence.
Qed.

(** On a coherent state [aggregate] does not panic: the result has one
    entry per island, in order, whose total sums the values of the nodes
    indexed to that island. *)
Lemma aggregate_coherent ord (s : Grid) :
  coherent s →
  aggregate ord s
  = Some (imap (λ i c, {| Island := c;
                          Total := fsum (filter (λ kv : string * float,
                                                   nodeToIsland s !! kv.1 = Some i) ord).*2 |})
               (islands s)).
Proof.
  intros Hco. unfold aggregate.
  destruct (sum_measurements_spec (nodeToIsland s) ord
              (replicate (List.length (islands s)) 0%float))
    as (totals & -> & Hlen & Hsum).
  { intros x i Hx. rewrite length_replicate. by apply (Hco x). }
  simpl. f_equal. rewrite length_replicate in Hlen.
  apply list_eq. intros i. rewrite lookup_zip_with, list_lookup_imap.
  destruct (islands s !! i) as [c|] eqn:Hc; simpl; [|done].
  rewrite (Hsum i 0%float); [done|].
  apply lookup_replicate_2. by apply lookup_lt_Some in Hc.
Qed.

(** The values that the entries [ord] hold for the nodes which the index
    [n2i] places in island [i], in the order of [ord]. *)
Definition indexed_values n2i ord (i : nat) : list float :=
  (filter (λ kv : string * float, n2i !! kv.1 = Some i) ord).*2.

(** The totals of a partition [isl] under the index [n2i]: one entry per
    island, in order, whose total sums the values of the nodes indexed to that
    island, added from zero in the order of [ord]. *)
Definition totals_over (isl : list (list string)) n2i ord : list IslandMeasurement :=
  imap (λ i c, {| Island := c; Total := fsum (indexed_values n2i ord i) |}) isl.

Lemma aggregate_totals_over ord (s : Grid) :
  coherent s → aggregate ord s = Some (totals_over (islands s) (nodeToIsland s) ord).
Proof. apply aggregate_coherent. Qed.

(** Whatever order enumerates a store, the values found for island [i] are
    the values the store holds for the nodes indexed [i]. *)
Lemma indexed_values_stored n2i ord M (i : nat) :
  ord ≡ₚ map_to_list M → indexed_values n2i ord i ≡ₚ indexed_values n2i (map_to_list M) i.
Proof. intros Hord. unfold indexed_values. by rewrite Hord. Qed.

Lemma omap_lookup_insert_fresh M c (k : string) (v : float) :
  k ∉ c → omap (<[k := v]> M !!.) c = omap (M !!.) c.
Proof.
  induction c as [|x c IH]; intros Hk; csimpl; [done|].
  rewrite not_elem_of_cons in Hk. destruct Hk as [Hkx Hkc].
  rewrite lookup_insert_ne by done. by rewrite IH.
Qed.

Lemma omap_lookup_insert M c (k : string) (v : float) :
  NoDup c → M !! k = None →
  omap (<[k := v]> M !!.) c ≡ₚ (if decide (k ∈ c) then [v] else []) ++ omap (M !!.) c.
Proof.
  intros Hnd HMk. induction Hnd as [|x c Hx Hnd IH]; csimpl.
  - done.
  - destruct (decide (x = k)) as [->|Hne].
    + rewrite lookup_insert_eq, HMk, decide_True by (by apply elem_of_cons; left).
      csimpl. by rewrite omap_lookup_insert_fresh.
    + rewrite lookup_insert_ne by done.
      assert ((if decide (k ∈ x :: c) then [v] else [])
              = (if decide (k ∈ c) then [v] else [])) as ->.
      { destruct (decide (k ∈ c)) as [Hc|Hc].
        - rewrite decide_True; [done|]. by apply elem_of_cons; right.
        - rewrite decide_False; [done|]. rewrite elem_of_cons. naive_solver. }
      destruct (M !! x) as [y|]; [|done].
      rewrite IH. apply Permutation_middle.
Qed.

(** Whatever the iteration order, the values summed for a duplicate-free
    component are the stored values of its nodes, each once. *)
Lemma measured_in_stored M ord c :
  ord ≡ₚ map_to_list M → NoDup c → measured_in ord c ≡ₚ omap (M !!.) c.
Proof.
  intros Hord Hnd. unfold measured_in. rewrite Hord. clear ord Hord.
  induction M as [|k v M Hk IH] using map_ind.
  - rewrite map_to_list_empty, filter_nil. csimpl.
    induction c as [|x c IHc]; csimpl; [done|].
    rewrite lookup_empty. apply IHc. by apply NoDup_cons in Hnd as [_ ?].
  - rewrite map_to_list_insert by done. rewrite omap_lookup_insert by done.
    destruct (decide (k ∈ c)) as [Hc|Hc].
    + rewrite filter_cons_True by done. csimpl. by rewrite IH.
    + rewrite filter_cons_False by done. by rewrite IH.
Qed.

(** On the partition of a graph the index agrees with the components, so
    the total of each entry sums the values of the nodes of its component. *)
Lemma aggregate_computeIslands (g : Graph) M ord :
  aggregate ord {| graph := g; islands := (computeIslands g).1;
                   nodeToIsland := (computeIslands g).2; measurements := M |}
  = Some ((λ c, {| Island := c; Total := fsum (measured_in ord c) |}) <$> (computeIslands g).1).
Proof.
  destruct (computeIslands_spec g) as (Hnd & Hidx & _ & _).
  destruct (NoDup_concat_lookup _ Hnd) as [Hnd1 Hnd2].
  rewrite aggregate_coherent.
  2:{ intros x i (c & Hc & _)%Hidx. by apply lookup_lt_Some in Hc. }
  simpl. f_equal. apply list_eq. intros i.
  rewrite list_lookup_imap, list_lookup_fmap.
  destruct ((computeIslands g).1 !! i) as [c|] eqn:Hc; simpl; [|done].
  do 3 f_equal. unfold measured_in. f_equal. apply list_filter_iff.
  intros [k v]. simpl. rewrite Hidx. split.
  - intros (c' & Hc' & Hk). congruence.
  - intros Hk. eauto.
Qed.

(** C2: for the partition of any graph and any measurement store,
    whatever order the store is iterated in, [aggregate] returns one entry
    per component, in partition order; the total of an entry is the sum of
    the stored values of the nodes of its component (each measured node
    counted once), and a component without a measured node reports 0. *)
Theorem aggregate_correct (g : Graph) M ord :
  let P := computeIslands g in
  let s := {| graph := g; islands := P.1; nodeToIsland := P.2; measurements := M |} in
  ord ≡ₚ map_to_list M →
  aggregate ord s
  = Some ((λ c, {| Island := c; Total := fsum (measured_in ord c) |}) <$> P.1) ∧
  (∀ c, c ∈ P.1 → measured_in ord c ≡ₚ omap (M !!.) c) ∧
  (∀ c, c ∈ P.1 → (∀ n, n ∈ c → M !! n = None) → fsum (measured_in ord c) = 0%float).
Proof.
  intros P s Hord. subst P s.
  destruct (computeIslands_spec g) as (Hnd & _ & _ & _).
  destruct (NoDup_concat_lookup _ Hnd) as [Hnd1 _].
  assert (∀ c, c ∈ (computeIslands g).1 → measured_in ord c ≡ₚ omap (M !!.) c) as Hstored.
  { intros c (i & Hi)%list_elem_of_lookup. apply measured_in_stored; eauto. }
  split; [apply aggregate_computeIslands|]. split; [done|].
  intros c Hc Hnone. specialize (Hstored c Hc).
  assert (omap (M !!.) c = []) as Hnil.
  { clear Hstored Hc. induction c as [|x c IH]; csimpl; [done|].
    rewrite (Hnone x) by (by apply elem_of_cons; left).
    apply IH. intros n Hn. apply Hnone. by apply elem_of_cons; right. }
  rewrite Hnil in Hstored. apply Permutation_nil_r in Hstored. by rewrite Hstored.
Qed.

(** The store and the partition of the aggregation test of the repository. *)
Definition sample_store : gmap string float :=
  <["a"%string := 1.5%float]> (<["b"%string := 2.5%float]> (<["c"%string := 10%float]> ∅)).

Lemma aggregate_correct_witness :
  map_to_list sample_store ≡ₚ map_to_list sample_store ∧
  aggregate (map_to_list sample_store)
    {| graph := NewGraph ["a"; "b"; "c"]%string [["a"; "b"]]%string;
       islands := [["a"; "b"]; ["c"]]%string;
       nodeToIsland := (computeIslands (NewGraph ["a"; "b"; "c"]%string [["a"; "b"]]%string)).2;
       measurements := sample_store |}
  = Some [ {| Island := ["a"; "b"]%string; Total := 4 |};
           {| Island := ["c"]%string; Total := 10 |} ].
Proof.
  split; [reflexivity|].
  destruct (aggregate_correct (NewGraph ["a"; "b"; "c"]%string [["a"; "b"]]%string)
              sample_store (map_to_list sample_store) (reflexivity _)) as [Hagg _].
  etransitivity; [exact Hagg|]. vm_compute. reflexivity.
Defined.

End Aggregator.

(** * The state engine: [update] and [Loop] *)

Section Engine.

Implicit Types (s : Grid) (ord : list (string * float)) (reply : option chan).

(** The topology part of the state: graph, partition and index. *)
Definition topology s : Graph * list (list string) * gmap string nat :=
  (graph s, islands s, nodeToIsland s).

(** The topology part that a topology update with graph [g] installs. *)
Definition installed (g : Graph) : Graph * list (list string) * gmap string nat :=
  (g, (computeIslands g).1, (computeIslands g).2).

(** The event with its reply channel replaced. *)
Definition with_reply (evt : Event) reply : Event :=
  match evt with
  | GraphUpdate g _ => GraphUpdate g reply
  | MeasurementUpdate m _ => MeasurementUpdate m reply
  | OtherEvent => OtherEvent
  end.

(** The stored value [v] of node [X] is one of the values summed into the
    total that [aggregate] reports for the component of [X]. *)
Definition contributes ord s (X : string) (v : float) : Prop :=
  ∃ i c, islands s !! i = Some c ∧ X ∈ c ∧
    (X, v) ∈ filter (λ kv : string * float, kv.1 ∈ c) ord ∧
    aggregate ord s ≫= (.!! i) = Some {| Island := c; Total := fsum (measured_in ord c) |}.

Lemma coherent_NewGrid : coherent NewGrid.
Proof. intros x i. unfold NewGrid. simpl. by rewrite lookup_empty. Qed.

Lemma coherent_computeIslands (g : Graph) (M : gmap string float) :
  coherent {| graph := g; islands := (computeIslands g).1;
              nodeToIsland := (computeIslands g).2; measurements := M |}.
Proof.
  destruct (computeIslands_spec g) as (_ & Hidx & _ & _).
  intros x i (c & Hc & _)%Hidx. by apply lookup_lt_Some in Hc.
Qed.

Lemma update_GraphUpdate ord s (g : Graph) reply :
  update ord s (GraphUpdate g reply)
  = Some ({| graph := g; islands := (computeIslands g).1;
             nodeToIsland := (computeIslands g).2; measurements := measurements s |},
          send reply (Islands (computeIslands g).1)).
Proof. unfold update. by destruct (computeIslands g). Qed.

Lemma update_MeasurementUpdate ord s (m : NodeMeasurement) reply :
  update ord s (MeasurementUpdate m reply)
  = (λ totals, (if HasNode (graph s) (Node m) then store s (Node m) (Value m) else s,
                send reply (Totals totals)))
    <$> aggregate ord (if HasNode (graph s) (Node m) then store s (Node m) (Value m) else s).
Proof. unfold update. by destruct (aggregate ord _). Qed.

(** A coherent state with one island of two connected nodes, one of which
    already has a stored value. *)
Definition pair_grid : Grid :=
  {| graph := NewGraph ["a"; "b"] [["a"; "b"]];
     islands := [["a"; "b"]];
     nodeToIsland := <["a" := 0]> {["b" := 0]};
     measurements := {["b" := 2%float]} |}.

Lemma coherent_pair_grid : coherent pair_grid.
Proof.
  intros x i. unfold pair_grid. simpl. intros Hx.
  apply lookup_insert_Some in Hx as [[_ <-]|[_ Hx]]; [lia|].
  apply lookup_singleton_Some in Hx as [_ <-]. lia.
Qed.

(** C1: a measurement update for node [id] with value [v] returns the state
    whose store holds [v] under [id] when [HasNode id] holds of the current
    graph and is the old store otherwise, with the graph, the partition and
    the index as they were; it sends on the reply channel, if there is one,
    exactly one message, the aggregate over that state, and panics exactly
    when that aggregate does. On a coherent state the message is the totals of
    the current partition, where the total of island [i] is the sum, in
    iteration order, of the values which the store so updated holds for the
    nodes indexed [i] ([ord] being the order in which the updated store is
    ranged over); so a value just stored for an indexed node is among those
    summed for its island. *)
Theorem update_measurement_spec ord s (id : string) (v : float) reply :
  let M' := if HasNode (graph s) id then <[id := v]> (measurements s) else measurements s in
  let s' := {| graph := graph s; islands := islands s; nodeToIsland := nodeToIsland s;
               measurements := M' |} in
  update ord s (MeasurementUpdate {| Node := id; Value := v |} reply)
  = (λ totals, (s', match reply with Some c => [(c, Totals totals)] | None => [] end))
    <$> aggregate ord s' ∧
  (coherent s → ord ≡ₚ map_to_list M' →
   update ord s (MeasurementUpdate {| Node := id; Value := v |} reply)
   = Some (s', match reply with
               | Some c => [(c, Totals (totals_over (islands s) (nodeToIsland s) ord))]
               | None => []
               end) ∧
   (∀ i, indexed_values (nodeToIsland s) ord i
         ≡ₚ indexed_values (nodeToIsland s) (map_to_list M') i) ∧
   (∀ i, HasNode (graph s) id = true → nodeToIsland s !! id = Some i →
         v ∈ indexed_values (nodeToIsland s) ord i)) ∧
  (HasNode (graph s) id = true → M' !! id = Some v) ∧
  (HasNode (graph s) id = false → s' = s).
Proof.
  intros M' s'.
  assert ((if HasNode (graph s) id then store s id v else s) = s') as Hs'.
  { subst s' M'. destruct s as [g isl n2i M]. simpl. by destruct (HasNode g id). }
  assert (update ord s (MeasurementUpdate {| Node := id; Value := v |} reply)
          = (λ totals, (s', match reply with Some c => [(c, Totals totals)] | None => [] end))
            <$> aggregate ord s') as Hupd.
  { rewrite update_MeasurementUpdate. simpl. rewrite Hs'.
    destruct (aggregate ord s'); simpl; [|done]. by destruct reply. }
  split; [done|]. split; [|split].
  - intros Hco Hord. split; [|split].
    + rewrite Hupd. by rewrite (aggregate_totals_over ord s').
    + intros i. by apply indexed_values_stored.
    + intros i HN Hi. unfold indexed_values.
      apply list_elem_of_fmap. exists (id, v). split; [done|].
      apply list_elem_of_filter. split; [done|].
      rewrite Hord. apply elem_of_map_to_list. subst M'. rewrite HN.
      apply lookup_insert_eq.
  - intros HN. subst M'. rewrite HN. apply lookup_insert_eq.
  - intros HN. rewrite <- Hs'. by rewrite HN.
Qed.

Lemma update_measurement_spec_witness :
  update [("a", 1.5%float); ("b", 2%float)] pair_grid
    (MeasurementUpdate {| Node := "a"; Value := 1.5%float |} (Some 7))
  = Some ({| graph := graph pair_grid; islands := [["a"; "b"]];
             nodeToIsland := nodeToIsland pair_grid;
             measurements := <["a" := 1.5%float]> {["b" := 2%float]} |},
          [(7, Totals [{| Island := ["a"; "b"]; Total := 3.5%float |}])]).
Proof.
  destruct (update_measurement_spec [("a", 1.5%float); ("b", 2%float)] pair_grid
              "a" 1.5%float (Some 7)) as (_ & Hupd & _).
  destruct Hupd as (Hupd & _ & _).
  - exact coherent_pair_grid.
  - assert (HasNode (graph pair_grid) "a" = true) as -> by (vm_compute; reflexivity).
    unfold pair_grid. simpl.
    rewrite map_to_list_insert by (vm_compute; reflexivity).
    by rewrite map_to_list_singleton.
  - rewrite Hupd. vm_compute. reflexivity.
Defined.

Lemma contributes_installed ord s (g : Graph) (X : string) (v : float) :
  topology s = installed g → X ∈ Nodes g → measurements s !! X = Some v →
  ord ≡ₚ map_to_list (measurements s) → contributes ord s X v.
Proof.
  destruct s as [g' isl n2i M]. unfold topology, installed. simpl.
  intros [= -> -> ->] HX HM Hord.
  destruct (computeIslands_spec g) as (_ & _ & Hall & _).
  pose proof (aggregate_computeIslands g M ord) as Hagg.
  apply Hall, elem_of_concat in HX as (i & c & Hi & HXc).
  exists i, c. simpl. split; [done|]. split; [done|]. split.
  - apply list_elem_of_filter. split; [done|].
    rewrite Hord. by apply elem_of_map_to_list.
  - simpl in Hagg. rewrite Hagg. simpl. by rewrite list_lookup_fmap, Hi.
Qed.

(** C5: a topology update installs the graph it carries together with the
    partition and index computed from it, sends on the reply channel, if
    there is one, exactly one message, the new partition, and leaves the
    measurement store as it was. Hence a value stored for [X] before the
    update is still stored after it, and is summed into the total of the
    component of [X] under the new topology if that contains [X] and under
    any later topology that contains [X]. *)
Theorem update_graph ord s (g : Graph) reply :
  ∃ s', update ord s (GraphUpdate g reply)
        = Some (s', match reply with
                    | Some c => [(c, Islands (computeIslands g).1)]
                    | None => []
                    end) ∧
    topology s' = installed g ∧
    measurements s' = measurements s ∧
    ∀ X v, measurements s !! X = Some v →
      measurements s' !! X = Some v ∧
      (∀ ord', ord' ≡ₚ map_to_list (measurements s') → X ∈ Nodes g →
         contributes ord' s' X v) ∧
      (∀ ord2 g2 reply2, X ∈ Nodes g2 →
         ∃ s2, update ord2 s' (GraphUpdate g2 reply2)
               = Some (s2, match reply2 with
                           | Some c => [(c, Islands (computeIslands g2).1)]
                           | None => []
                           end) ∧
           topology s2 = installed g2 ∧
           measurements s2 !! X = Some v ∧
           ∀ ord', ord' ≡ₚ map_to_list (measurements s2) → contributes ord' s2 X v).
Proof.
  exists {| graph := g; islands := (computeIslands g).1;
            nodeToIsland := (computeIslands g).2; measurements := measurements s |}.
  split; [rewrite (update_GraphUpdate ord); by destruct reply|].
  split; [done|]. split; [done|]. intros X v HX.
  split; [done|]. split.
  - intros ord' Hord Hin. by apply (contributes_installed _ _ g).
  - intros ord2 g2 reply2 Hin.
    exists {| graph := g2; islands := (computeIslands g2).1;
              nodeToIsland := (computeIslands g2).2; measurements := measurements s |}.
    split; [rewrite (update_GraphUpdate ord2); by destruct reply2|].
    split; [done|]. split; [done|].
    intros ord' Hord. by apply (contributes_installed _ _ g2).
Qed.

(** C9: the state after an event does not depend on its reply channel:
    with any channel or with none the same state results (and the event
    panics with the one exactly when it panics with the other); without a
    channel nothing is sent. *)
Theorem update_reply_irrelevant ord s (evt : Event) reply :
  fst <$> update ord s (with_reply evt reply) = fst <$> update ord s (with_reply evt None) ∧
  snd <$> update ord s (with_reply evt None) = (λ _, []) <$> update ord s evt.
Proof.
  destruct evt as [g r|m r|]; unfold with_reply.
  - by rewrite !update_GraphUpdate.
  - unfold update. by destruct (aggregate ord _).
  - done.
Qed.

Lemma sum_measurements_unindexed ord (totals : list float) :
  sum_measurements ∅ ord totals = Some totals.
Proof.
  induction ord as [|kv ord IH]; simpl; [done|].
  unfold add_measurement. by rewrite lookup_empty.
Qed.

(** C10: on a fresh grid a measurement update stores nothing, replies with
    the empty sequence of totals and leaves the state equal to [NewGrid]. *)
Theorem update_measurement_NewGrid ord (m : NodeMeasurement) reply :
  update ord NewGrid (MeasurementUpdate m reply) = Some (NewGrid, send reply (Totals [])) ∧
  HasNode (graph NewGrid) (Node m) = false ∧
  aggregate ord NewGrid = Some [].
Proof.
  assert (aggregate ord NewGrid = Some []) as Hagg.
  { unfold aggregate. simpl. by rewrite sum_measurements_unindexed. }
  split; [|done]. unfold update.
  assert (HasNode (graph NewGrid) (Node m) = false) as ->; [|by rewrite Hagg].
  unfold HasNode. simpl. apply bool_decide_eq_false. rewrite lookup_empty. by intros [? ?].
Qed.

End Engine.

(** * Serial consistency of [Loop] *)

Section Serial.

Implicit Types (s : Grid) (outs : list (chan * Msg)).

Local Arguments update : simpl never.

(** A received measurement update: the measurement, its reply channel and
    the iteration order its aggregation uses. *)
Definition recv_measurement (r : NodeMeasurement * option chan * list (string * float)) : Selected :=
  Recv (MeasurementUpdate r.1.1 r.1.2) r.2.

(** The state [s] with its measurement store replaced by [M]. *)
Definition with_store s (M : gmap string float) : Grid :=
  {| graph := graph s; islands := islands s; nodeToIsland := nodeToIsland s;
     measurements := M |}.

(** The store after a measurement for a graph [g]: the value is kept under
    its node when [g] declares the node, and dropped otherwise. *)
Definition stored (g : Graph) (M : gmap string float) (m : NodeMeasurement) : gmap string float :=
  if HasNode g (Node m) then <[Node m := Value m]> M else M.

(** The store after a sequence of measurements, and the stores after each
    of them in turn. *)
Definition final_store (g : Graph) (M : gmap string float)
    (l : list (NodeMeasurement * option chan * list (string * float))) : gmap string float :=
  foldl (λ M p, stored g M p.1.1) M l.

Fixpoint stores (g : Graph) (M : gmap string float)
    (l : list (NodeMeasurement * option chan * list (string * float)))
    : list (gmap string float) :=
  match l with
  | [] => []
  | p :: l => stored g M p.1.1 :: stores g (stored g M p.1.1) l
  end.

(** The replies a sequence of measurement updates is owed under one fixed
    topology [T]: for each update that carries a reply channel, in order, the
    totals of the partition of [T] under the index of [T], summed in the
    iteration order of that update. *)
Definition expected_replies (T : Graph * list (list string) * gmap string nat)
    (l : list (NodeMeasurement * option chan * list (string * float))) : list (chan * Msg) :=
  l ≫= λ p, match p.1.2 with
            | Some c => [(c, Totals (totals_over T.1.2 T.2 p.2))]
            | None => []
            end.

(** Each update ranges over the store as it is once the update has been
    applied. *)
Definition enumerated (l : list (NodeMeasurement * option chan * list (string * float)))
    (Ms : list (gmap string float)) : Prop :=
  Forall2 (λ p M, p.2 ≡ₚ map_to_list M) l Ms.

(** Under the index [n2i] the values each update sums for island [i] are the
    values its store holds for the nodes indexed [i]. *)
Definition sums_stored (n2i : gmap string nat)
    (l : list (NodeMeasurement * option chan * list (string * float)))
    (Ms : list (gmap string float)) : Prop :=
  Forall2 (λ p M, ∀ i, indexed_values n2i p.2 i ≡ₚ indexed_values n2i (map_to_list M) i) l Ms.

Lemma enumerated_sums_stored (n2i : gmap string nat) l Ms :
  enumerated l Ms → sums_stored n2i l Ms.
Proof.
  unfold enumerated, sums_stored. intros H. eapply Forall2_impl; [exact H|].
  intros p M Hp i. by apply indexed_values_stored.
Qed.

Lemma with_store_measurements s : with_store s (measurements s) = s.
Proof. by destruct s. Qed.

(** One measurement update on a coherent state: it completes, replaces the
    store and nothing else, and replies with the totals of the topology of
    that state. *)
Lemma update_measurement_step ord s (m : NodeMeasurement) (reply : option chan) :
  coherent s →
  update ord s (MeasurementUpdate m reply)
  = Some (with_store s (stored (graph s) (measurements s) m),
          match reply with
          | Some c => [(c, Totals (totals_over (islands s) (nodeToIsland s) ord))]
          | None => []
          end).
Proof.
  intros Hco. rewrite update_MeasurementUpdate.
  assert ((if HasNode (graph s) (Node m) then store s (Node m) (Value m) else s)
          = with_store s (stored (graph s) (measurements s) m)) as ->.
  { unfold stored. destruct s as [g isl n2i M]. simpl. by destruct (HasNode g (Node m)). }
  rewrite aggregate_totals_over by done. simpl. by destruct reply.
Qed.

(** A run of measurement updates on a coherent state, followed by the rest
    of the trace: the updates are answered under the topology of that state,
    and the rest runs on the state with the store the updates leave. *)
Lemma Loop_segment s (l : list (NodeMeasurement * option chan * list (string * float)))
    (rest : list Selected) :
  coherent s →
  Loop s ((recv_measurement <$> l) ++ rest)
  = '(sf, outs) ← Loop (with_store s (final_store (graph s) (measurements s) l)) rest;
    Some (sf, expected_replies (topology s) l ++ outs).
Proof.
  revert s. induction l as [|[[m r] ord] l IH]; intros s Hco.
  - unfold final_store. simpl. rewrite with_store_measurements.
    by destruct (Loop s rest) as [[sf outs]|].
  - change (Loop s ((recv_measurement <$> (m, r, ord) :: l) ++ rest))
      with ('(s', out) ← update ord s (MeasurementUpdate m r);
            '(s'', outs) ← Loop s' ((recv_measurement <$> l) ++ rest);
            Some (s'', out ++ outs)).
    rewrite update_measurement_step by done. csimpl.
    rewrite IH by done. unfold final_store, expected_replies. csimpl.
    destruct (Loop _ rest) as [[sf outs]|]; csimpl; [|done].
    by rewrite (assoc_L (++)).
Qed.

(** Every event completes on a coherent state and leaves one; so does every
    trace: the states the loop reaches from [NewGrid] are all coherent. *)
Lemma update_total (ord : list (string * float)) s (evt : Event) :
  coherent s → ∃ s' out, update ord s evt = Some (s', out) ∧ coherent s'.
Proof.
  intros Hco. destruct evt as [g r|m r|].
  - rewrite update_GraphUpdate. eexists _, _. split; [done|]. apply coherent_computeIslands.
  - rewrite update_measurement_step by done. eexists _, _. by split.
  - by exists s, [].
Qed.

Lemma Loop_total s (trace : list Selected) :
  coherent s → ∃ sf outs, Loop s trace = Some (sf, outs) ∧ coherent sf.
Proof.
  revert s. induction trace as [|[| |e ord] trace IH]; intros s Hco; csimpl; eauto.
  destruct (update_total ord s e Hco) as (s' & out & -> & Hco'). csimpl.
  destruct (IH s' Hco') as (sf & outs & -> & Hsf). csimpl. eauto.
Qed.

Corollary Loop_NewGrid_total (trace : list Selected) :
  ∃ sf outs, Loop NewGrid trace = Some (sf, outs) ∧ coherent sf.
Proof. apply Loop_total, coherent_NewGrid. Qed.

(** C7: the loop applies the received events one after the other. Whatever
    the position of the one topology update among any number of measurement
    updates, the loop started on a coherent state completes and sends exactly
    these replies, in order: to each measurement update received before the
    topology update, the totals of the partition and index before the update;
    to the topology update, the new partition; to each measurement update
    received after it, the totals of the partition and index it installs. No
    reply mixes the two. The store is the one the measurements leave, each
    kept only if the graph current at its turn declares its node, and when
    each update ranges over the store as it is at its turn, the values summed
    into each total are the values then stored for the nodes of that
    island. *)
Theorem Loop_serial_consistency s (g : Graph) (rg : option chan) (og : list (string * float))
    (before after : list (NodeMeasurement * option chan * list (string * float))) :
  let M1 := final_store (graph s) (measurements s) before in
  coherent s →
  ∃ sf,
    Loop s ((recv_measurement <$> before) ++ Recv (GraphUpdate g rg) og
              :: (recv_measurement <$> after))
    = Some (sf, expected_replies (topology s) before
                ++ match rg with
                   | Some c => [(c, Islands (computeIslands g).1)]
                   | None => []
                   end
                ++ expected_replies (installed g) after) ∧
    topology sf = installed g ∧
    measurements sf = final_store g M1 after ∧
    (enumerated before (stores (graph s) (measurements s) before) →
     sums_stored (nodeToIsland s) before (stores (graph s) (measurements s) before)) ∧
    (enumerated after (stores g M1 after) →
     sums_stored (computeIslands g).2 after (stores g M1 after)).
Proof.
  intros M1 Hco.
  exists {| graph := g; islands := (computeIslands g).1;
            nodeToIsland := (computeIslands g).2;
            measurements := final_store g M1 after |}.
  split; [|split; [done|split; [done|split; apply enumerated_sums_stored]]].
  rewrite Loop_segment by done. fold M1.
  change (Loop (with_store s M1) (Recv (GraphUpdate g rg) og :: (recv_measurement <$> after)))
    with ('(s', out) ← update og (with_store s M1) (GraphUpdate g rg);
          '(s'', outs) ← Loop s' (recv_measurement <$> after);
          Some (s'', out ++ outs)).
  rewrite update_GraphUpdate. csimpl.
  rewrite <- (app_nil_r (recv_measurement <$> after)).
  rewrite Loop_segment by apply coherent_computeIslands.
  csimpl. rewrite app_nil_r. by destruct rg.
Qed.

(** A run from the fresh grid: a measurement, the topology update, a
    measurement. *)
Definition sample_graph : Graph :=
  NewGraph ["a"; "b"; "c"]%string [["a"; "b"]]%string.

Lemma Loop_serial_consistency_witness :
  ∃ sf,
    Loop NewGrid
      ((recv_measurement <$> [({| Node := "a"; Value := 1 |}, Some 1, [])])
       ++ Recv (GraphUpdate sample_graph (Some 0)) []
       :: (recv_measurement <$> [({| Node := "a"; Value := 1.5 |}, Some 2,
                                  [("a"%string, 1.5%float)])]))
    = Some (sf, [(1, Totals []);
                 (0, Islands [["a"; "b"]; ["c"]]);
                 (2, Totals [{| Island := ["a"; "b"]; Total := 1.5 |};
                             {| Island := ["c"]; Total := 0 |}])]) ∧
    topology sf = installed sample_graph ∧
    measurements sf = {["a" := 1.5%float]}.
Proof.
  destruct (Loop_serial_consistency NewGrid sample_graph (Some 0) []
              [({| Node := "a"; Value := 1 |}, Some 1, [])]
              [({| Node := "a"; Value := 1.5 |}, Some 2, [("a"%string, 1.5%float)])])
    as (sf & HL & Htop & HM & _).
  - exact coherent_NewGrid.
  - exists sf. split; [|split; [done|]].
    + rewrite HL. reflexivity.
    + rewrite HM. vm_compute. reflexivity.
Defined.

End Serial.

(** * Backpressure in the handlers *)

Section Backpressure.

Import Api.

(** The ready time [r] (if any) comes after the backpressure timeout. *)
Definition later (r : option N) : Prop :=
  match r with
  | Some t => (backpressureTimeout < t)%N
  | None => True
  end.

(** The enqueue attempt of a handler is bounded: in every environment it
    ends within the backpressure timeout, and when neither a slot frees nor
    the context is done by then, it ends with the queue-full case alone. *)
Definition bounded_enqueue (attempt : Env → option (N * list Attempt)) : Prop :=
  ∀ env, ∃ t attempts, attempt env = Some (t, attempts) ∧
    (t ≤ backpressureTimeout)%N ∧ attempts ≠ [] ∧
    (later (slot env) → later (done env) → t = backpressureTimeout ∧ attempts = [Busy]).

(** An environment in which the queue never has a free slot and the request
    context is never done. *)
Definition stuck : Env := {| slot := None; done := None; reply := None |}.

Lemma measurementsHandler_select_bounded : bounded_enqueue measurementsHandler_select.
Proof.
  intros [s d r]. unfold measurementsHandler_select, select. simpl.
  destruct s as [s|], d as [d|]; simpl; rewrite ?N.max_0_l;
    (eexists _, _; split; [reflexivity|]);
    rewrite ?filter_cons, ?filter_nil; unfold ready_at; simpl; rewrite ?N.max_0_l;
    repeat case_decide; simplify_eq; simpl.
  all: repeat match goal with
       | H : Some ?a ≠ Some ?b |- _ => assert (a ≠ b) by congruence; clear H
       end.
  all: try (exfalso; lia).
  all: split; [lia|split; [done|intros; first [split; [lia|done]|exfalso; lia]]].
Qed.

Lemma graphHandler_no_slot (env : Env) :
  slot env = None →
  graphHandler env
  = match done env with
    | Some d => [Responds d StatusRequestTimeout]
    | None => [Blocks]
    end.
Proof.
  destruct env as [s d r]. simpl. intros ->.
  unfold graphHandler, graphHandler_select, select. simpl.
  destruct d as [d|]; simpl; [|done].
  rewrite filter_cons_False by done.
  rewrite filter_cons_True by done. simpl. by rewrite N.max_0_l.
Qed.

(** C6 as stated fails for the graph handler: with no free slot and a
    context that is never done its enqueue attempt never ends, and with a
    context done after a second it ends only then, as a request timeout and
    not as queue-full. So the enqueue attempts are not both bounded. *)
Lemma graphHandler_enqueue_unbounded :
  graphHandler_select stuck = None ∧
  graphHandler stuck = [Blocks] ∧
  graphHandler {| slot := None; done := Some (1000 * Millisecond)%N; reply := None |}
  = [Responds (1000 * Millisecond)%N StatusRequestTimeout] ∧
  ¬ (bounded_enqueue graphHandler_select ∧ bounded_enqueue measurementsHandler_select).
Proof.
  split; [done|]. split; [done|]. split; [done|].
  intros [Hg _]. destruct (Hg stuck) as (t & attempts & Hsel & _). done.
Qed.

(** The outer [select] of the graph handler has two cases and no timer: it
    ends when the first of the two can proceed, whenever that is, with the
    case or cases that can proceed then. *)
Lemma graphHandler_select_spec (env : Env) :
  graphHandler_select env
  = match slot env, done env with
    | None, None => None
    | Some s, None => Some (s, [Enqueued])
    | None, Some d => Some (d, [Cancelled])
    | Some s, Some d =>
        Some (N.min s d, (if decide (s ≤ d)%N then [Enqueued] else [])
                         ++ (if decide (d ≤ s)%N then [Cancelled] else []))
    end.
Proof.
  destruct env as [s d r]. unfold graphHandler_select, select. simpl.
  destruct s as [s|], d as [d|]; simpl; rewrite ?N.max_0_l; [| | |done].
  - rewrite N.min_comm. f_equal. f_equal.
    rewrite !filter_cons, filter_nil. unfold ready_at. simpl. rewrite !N.max_0_l.
    repeat case_decide; simplify_eq; simpl; try done;
      repeat match goal with
      | H : Some ?a ≠ Some ?b |- _ => assert (a ≠ b) by congruence; clear H
      end; exfalso; lia.
  - rewrite !filter_cons, filter_nil. unfold ready_at. simpl. rewrite !N.max_0_l.
    repeat case_decide; simplify_eq; simpl; done.
  - rewrite !filter_cons, filter_nil. unfold ready_at. simpl. rewrite !N.max_0_l.
    repeat case_decide; simplify_eq; simpl; done.
Qed.

Lemma graphHandler_spec (env : Env) :
  graphHandler env
  = match slot env, done env with
    | None, None => [Blocks]
    | Some s, None => await_reply env s
    | None, Some d => [Responds d StatusRequestTimeout]
    | Some s, Some d =>
        (if decide (s ≤ d)%N then await_reply env s else [])
        ++ (if decide (d ≤ s)%N then [Responds d StatusRequestTimeout] else [])
    end.
Proof.
  unfold graphHandler. rewrite graphHandler_select_spec.
  destruct (slot env) as [s|], (done env) as [d|]; simpl; rewrite ?app_nil_r; try done.
  repeat case_decide; simpl; rewrite ?app_nil_r; try done.
  - assert (s = d) as -> by lia. by rewrite N.min_id.
  - by rewrite N.min_l by lia.
  - by rewrite N.min_r by lia.
Qed.

(** Once the event is enqueued the handler answers 200 or 408, or blocks. *)
Lemma await_reply_status (env : Env) (now : N) (o : Outcome) :
  o ∈ await_reply env now →
  o = Blocks ∨ ∃ t, o = Responds t StatusOK ∨ o = Responds t StatusRequestTimeout.
Proof.
  unfold await_reply, select.
  destruct (omap _ _) as [|t ts]; [intros ->%list_elem_of_singleton; by left|].
  intros (st & -> & Hst)%list_elem_of_fmap. right.
  apply list_elem_of_fmap in Hst as ([r a] & -> & Hin).
  apply list_elem_of_filter in Hin as [_ Hin].
  apply elem_of_cons in Hin as [Heq|Hin]; [injection Heq as -> ->; eexists; by left|].
  apply elem_of_cons in Hin as [Heq|Hin]; [injection Heq as -> ->; eexists; by right|].
  by apply elem_of_nil in Hin.
Qed.

Lemma graphHandler_never_busy (env : Env) (t : N) :
  Responds t StatusTooManyRequests ∉ graphHandler env.
Proof.
  assert (∀ now, Responds t StatusTooManyRequests ∉ await_reply env now) as Hawait.
  { intros now [Ho|[t' [Ho|Ho]]]%await_reply_status; discriminate. }
  rewrite graphHandler_spec.
  destruct (slot env) as [s|], (done env) as [d|].
  - intros [Ho|Ho]%elem_of_app.
    + destruct (decide (s ≤ d)%N); [by apply (Hawait s)|by apply elem_of_nil in Ho].
    + destruct (decide (d ≤ s)%N); [|by apply elem_of_nil in Ho].
      apply list_elem_of_singleton in Ho. discriminate.
  - apply Hawait.
  - intros Ho%list_elem_of_singleton. discriminate.
  - intros Ho%list_elem_of_singleton. discriminate.
Qed.

(** Within the timeout the measurements handler enqueues as soon as a slot
    frees, if the context is not done by then. *)
Lemma measurementsHandler_select_enqueues (env : Env) (s : N) :
  slot env = Some s → (s < backpressureTimeout)%N →
  match done env with Some d => (s < d)%N | None => True end →
  measurementsHandler_select env = Some (s, [Enqueued]).
Proof.
  destruct env as [s' d r]. simpl. intros -> Hs Hd.
  unfold measurementsHandler_select, select. simpl.
  destruct d as [d|]; simpl; rewrite ?N.max_0_l.
  - rewrite !filter_cons, filter_nil. unfold ready_at. simpl. rewrite !N.max_0_l.
    assert (N.min backpressureTimeout (N.min d s) = s) as -> by lia.
    repeat case_decide; simplify_eq; simpl; try done;
      repeat match goal with
      | H : Some ?a ≠ Some ?b |- _ => assert (a ≠ b) by congruence; clear H
      end; exfalso; lia.
  - rewrite !filter_cons, filter_nil. unfold ready_at. simpl. rewrite !N.max_0_l.
    assert (N.min backpressureTimeout s = s) as -> by lia.
    repeat case_decide; simplify_eq; simpl; try done;
      repeat match goal with
      | H : Some ?a ≠ Some ?b |- _ => assert (a ≠ b) by congruence; clear H
      end; exfalso; lia.
Qed.

(** C6, amended: the enqueue attempt of the measurements handler is
    bounded by [backpressureTimeout] (20ms): within it the handler enqueues as
    soon as a slot frees, and when neither a slot frees nor the context is
    done within it the handler answers 429 at the timeout. The enqueue attempt
    of the graph handler has no timeout: it lasts until a slot frees or the
    request context is done, whichever comes first and however late; it then
    enqueues and awaits the reply, or answers 408; it blocks while neither
    happens, and it never answers 429. *)
Theorem measurementsHandler_backpressure :
  backpressureTimeout = 20000000%N ∧
  bounded_enqueue measurementsHandler_select ∧
  (∀ env, later (slot env) → later (done env) →
     measurementsHandler env = [Responds backpressureTimeout StatusTooManyRequests]) ∧
  (∀ env, slot env = None →
     graphHandler env
     = match done env with
       | Some d => [Responds d StatusRequestTimeout]
       | None => [Blocks]
       end) ∧
  (∀ env s, slot env = Some s → (s < backpressureTimeout)%N →
     match done env with Some d => (s < d)%N | None => True end →
     measurementsHandler_select env = Some (s, [Enqueued]) ∧
     measurementsHandler env = await_reply env s) ∧
  (∀ env,
     graphHandler_select env
     = match slot env, done env with
       | None, None => None
       | Some s, None => Some (s, [Enqueued])
       | None, Some d => Some (d, [Cancelled])
       | Some s, Some d =>
           Some (N.min s d, (if decide (s ≤ d)%N then [Enqueued] else [])
                            ++ (if decide (d ≤ s)%N then [Cancelled] else []))
       end) ∧
  (∀ env,
     graphHandler env
     = match slot env, done env with
       | None, None => [Blocks]
       | Some s, None => await_reply env s
       | None, Some d => [Responds d StatusRequestTimeout]
       | Some s, Some d =>
           (if decide (s ≤ d)%N then await_reply env s else [])
           ++ (if decide (d ≤ s)%N then [Responds d StatusRequestTimeout] else [])
       end) ∧
  (∀ env t, Responds t StatusTooManyRequests ∉ graphHandler env).
Proof.
  split; [done|]. split; [apply measurementsHandler_select_bounded|].
  split; [|split; [apply graphHandler_no_slot|split; [|split; [|split]]]].
  - intros env Hs Hd. unfold measurementsHandler.
    destruct (measurementsHandler_select_bounded env)
      as (t & attempts & Hsel & Ht & _ & Hbusy).
    destruct (Hbusy Hs Hd) as [-> ->]. by rewrite Hsel.
  - intros env s Hs Hlt Hd.
    pose proof (measurementsHandler_select_enqueues env s Hs Hlt Hd) as Hsel.
    split; [done|]. unfold measurementsHandler. rewrite Hsel. simpl. by rewrite app_nil_r.
  - apply graphHandler_select_spec.
  - apply graphHandler_spec.
  - apply graphHandler_never_busy.
Qed.

(** The amended statement at work: a queue that stays full and a context
    that is done only after a second. *)
Lemma measurementsHandler_backpressure_witness :
  measurementsHandler {| slot := None; done := Some (1000 * Millisecond)%N; reply := None |}
  = [Responds backpressureTimeout StatusTooManyRequests].
Proof.
  apply measurementsHandler_backpressure; simpl; [done|].
  unfold backpressureTimeout, Millisecond. lia.
Defined.

End Backpressure.

(** * The tests of the repository, run on the model *)

Section RepositoryTests.

Local Open Scope string_scope.

(** state_test.go, [TestNewGraph]. *)
Example TestNewGraph_undirected :
  Edges (NewGraph ["A"; "B"] [["A"; "B"]]) = Some (<["A" := ["B"]]> (<["B" := ["A"]]> ∅)).
Proof. vm_compute. reflexivity. Qed.

Example TestNewGraph_unknown_nodes :
  let g := NewGraph ["A"] [["A"; "X"]; ["X"; "A"]] in
  Edges g = Some (<["A" := []]> ∅) ∧ HasNode g "X" = false.
Proof. vm_compute. split; reflexivity. Qed.

Example TestNewGraph_malformed :
  Edges (NewGraph ["A"; "B"] [["A"]; ["A"; "B"; "C"]]) = Some (<["A" := []]> (<["B" := []]> ∅)).
Proof. vm_compute. reflexivity. Qed.

Example TestNewGraph_multiple :
  Edges (NewGraph ["A"; "B"; "C"] [["A"; "B"]; ["B"; "C"]])
  = Some (<["A" := ["B"]]> (<["B" := ["A"; "C"]]> (<["C" := ["B"]]> ∅))).
Proof. vm_compute. reflexivity. Qed.

(** [TestComputeIslands]. *)
Example TestComputeIslands_empty :
  computeIslands {| Nodes := []; Edges := Some ∅ |} = ([], ∅).
Proof. vm_compute. reflexivity. Qed.

Example TestComputeIslands_single :
  computeIslands {| Nodes := ["a"; "b"; "c"];
                    Edges := Some (<["a" := ["b"]]> (<["b" := ["a"; "c"]]> (<["c" := ["b"]]> ∅))) |}
  = ([["a"; "b"; "c"]], <["a" := 0]> (<["b" := 0]> (<["c" := 0]> ∅))).
Proof. vm_compute. reflexivity. Qed.

Example TestComputeIslands_multiple :
  computeIslands {| Nodes := ["x"; "y"; "z"; "w"];
                    Edges := Some (<["x" := ["y"]]> (<["y" := ["x"]]>
                                   (<["z" := ["w"]]> (<["w" := ["z"]]> ∅)))) |}
  = ([["x"; "y"]; ["z"; "w"]],
     <["x" := 0]> (<["y" := 0]> (<["z" := 1]> (<["w" := 1]> ∅)))).
Proof. vm_compute. reflexivity. Qed.

(** [TestAggregate]: the graph field is left at its zero
    value there. *)
Example TestAggregate_sums :
  let M : gmap string float := <["a" := 1.5%float]> (<["b" := 2.5%float]> (<["c" := 10%float]> ∅)) in
  aggregate (map_to_list M)
    {| graph := {| Nodes := []; Edges := None |};
       islands := [["a"; "b"]; ["c"]];
       nodeToIsland := <["a" := 0]> (<["b" := 0]> (<["c" := 1]> ∅));
       measurements := M |}
  = Some [ {| Island := ["a"; "b"]; Total := 4 |}; {| Island := ["c"]; Total := 10 |} ].
Proof. vm_compute. reflexivity. Qed.

Example TestAggregate_unknown_nodes :
  let M : gmap string float := <["a" := 5%float]> (<["ghost" := 9%float]> ∅) in
  aggregate (map_to_list M)
    {| graph := {| Nodes := []; Edges := None |};
       islands := [["a"]];
       nodeToIsland := <["a" := 0]> ∅;
       measurements := M |}
  = Some [ {| Island := ["a"]; Total := 5 |} ].
Proof. vm_compute. reflexivity. Qed.

Example TestAggregate_no_measurements :
  aggregate []
    {| graph := {| Nodes := []; Edges := None |};
       islands := [["solo"]];
       nodeToIsland := <["solo" := 0]> ∅;
       measurements := ∅ |}
  = Some [ {| Island := ["solo"]; Total := 0 |} ].
Proof. vm_compute. reflexivity. Qed.

(** [TestGridUpdateHandlesEvents], second case: a graph update
    followed by three measurements, the second for an unknown node. The
    iteration orders are those of the store at each step. *)
Example TestGridUpdateHandlesEvents_unknown_nodes :
  let g := {| Nodes := ["a"; "b"; "c"];
              Edges := Some (<["a" := ["b"]]> (<["b" := ["a"]]> (<["c" := []]> ∅))) |} in
  snd <$> Loop NewGrid
    [ Recv (GraphUpdate g (Some 0)) [];
      Recv (MeasurementUpdate {| Node := "a"; Value := 2.5 |} (Some 1)) [("a", 2.5%float)];
      Recv (MeasurementUpdate {| Node := "ghost"; Value := 10 |} (Some 2)) [("a", 2.5%float)];
      Recv (MeasurementUpdate {| Node := "c"; Value := 1.5 |} (Some 3))
           [("c", 1.5%float); ("a", 2.5%float)] ]
  = Some [ (0, Islands [["a"; "b"]; ["c"]]);
           (1, Totals [ {| Island := ["a"; "b"]; Total := 2.5 |}; {| Island := ["c"]; Total := 0 |} ]);
           (2, Totals [ {| Island := ["a"; "b"]; Total := 2.5 |}; {| Island := ["c"]; Total := 0 |} ]);
           (3, Totals [ {| Island := ["a"; "b"]; Total := 2.5 |}; {| Island := ["c"]; Total := 1.5 |} ]) ].
Proof. vm_compute. reflexivity. Qed.

(** all_test.go, the backpressure test: no consumer, and a request context
    done after 10ms; the graph handler answers 408. *)
Example TestBackpressure_graph_no_consumer :
  Api.graphHandler {| Api.slot := None; Api.done := Some (10 * Api.Millisecond)%N;
                      Api.reply := None |}
  = [Api.Responds (10 * Api.Millisecond)%N Api.StatusRequestTimeout].
Proof. vm_compute. reflexivity. Qed.

End RepositoryTests.

(** * Islands are connected components *)

Section Components.

Implicit Types (g : Graph) (stack island new : list string) (visited : gset string).

(** [x] is in the adjacency list of [v]. *)
Definition adjacent g (v x : string) : Prop := x ∈ index (Edges g) v.

(** Input edge (a,b) or (b,a) is kept by the builder. *)
Definition linked (nodes : list string) (edges : list (list string)) (a b : string) : Prop :=
  a ∈ nodes ∧ b ∈ nodes ∧ ([a; b] ∈ edges ∨ [b; a] ∈ edges).

(** The traversal again, now with what it reaches: every new node is
    reachable from a node of the stack, every neighbour of a new node ends
    up visited, and an unvisited top of the stack comes first. *)
Lemma dfs_component g stack visited island :
  ∃ new, dfs g stack visited island = (list_to_set new ∪ visited, island ++ new) ∧
    (∀ x, x ∈ new → x ∉ visited) ∧
    (∀ x, x ∈ stack → x ∈ visited ∨ x ∈ new) ∧
    (∀ x, x ∈ new → ∃ s, s ∈ stack ∧ rtc (adjacent g) s x) ∧
    (∀ v x, v ∈ new → adjacent g v x → x ∈ visited ∨ x ∈ new) ∧
    (∀ v, head stack = Some v → v ∉ visited → head new = Some v).
Proof.
  funelim (dfs g stack visited island).
  - exists []. rewrite app_nil_r. simpl. split; [f_equal; set_solver|].
    split; [by intros x ?%elem_of_nil|]. split; [by intros x ?%elem_of_nil|].
    split; [by intros x ?%elem_of_nil|]. split; [by intros v x ?%elem_of_nil|].
    by intros v [=].
  - destruct H as (new & Hd & Hfresh & Hstack & Hreach & Hclosed & Hhead).
    exists new. split; [done|]. split; [done|]. split; [|split; [|split; [done|]]].
    + intros x [->|Hx]%elem_of_cons; [by left|by apply Hstack].
    + intros x Hx. destruct (Hreach x Hx) as (s & Hs & Hsx).
      exists s. split; [by apply elem_of_cons; right|done].
    + intros w [= ->] Hw. done.
  - destruct H as (new & Hd & Hfresh & Hstack & Hreach & Hclosed & Hhead).
    assert (∀ x, x ∈ {[v]} ∪ visited ∨ x ∈ new → x ∈ visited ∨ x ∈ v :: new) as Hmove.
    { intros x [[->%elem_of_singleton|Hx]%elem_of_union|Hx]; [right|by left|right].
      - by apply elem_of_cons; left.
      - by apply elem_of_cons; right. }
    exists (v :: new). split.
    { rewrite Hd. f_equal; [|by rewrite <- app_assoc].
      apply set_eq. intros x. rewrite list_to_set_cons. set_solver. }
    split.
    { intros x [->|Hx]%elem_of_cons; [done|]. apply Hfresh in Hx. set_solver. }
    split.
    { intros x [->|Hx]%elem_of_cons; [right; by apply elem_of_cons; left|].
      apply Hmove, Hstack, push_unvisited_elem. by left. }
    split.
    { intros x [->|Hx]%elem_of_cons.
      - exists v. split; [by apply elem_of_cons; left|done].
      - destruct (Hreach x Hx) as (s & Hs & Hsx).
        apply push_unvisited_elem in Hs as [Hs|[Hs _]].
        + exists s. split; [by apply elem_of_cons; right|done].
        + exists v. split; [by apply elem_of_cons; left|]. by apply (rtc_l _ _ s). }
    split.
    { intros w x [->|Hw]%elem_of_cons Hwx.
      - destruct (decide (x ∈ {[v]} ∪ visited)) as [Hx|Hx]; [apply Hmove; by left|].
        apply Hmove, Hstack, push_unvisited_elem. right. done.
      - apply Hmove. destruct (Hclosed w x Hw Hwx); [by left|by right]. }
    intros w [= ->] _. done.
Qed.

(** The invariant of the loop over [g.Nodes], for components: the visited
    set is closed under adjacency, every island starts with a node from
    which all its nodes are reachable, and when adjacency is symmetric an
    island contains the neighbours of its nodes. *)
Definition components_inv g (st : gset string * list (list string) * gmap string nat) : Prop :=
  let '(visited, islands, _) := st in
  (∀ x, x ∈ visited ↔ x ∈ concat islands) ∧
  (∀ v x, v ∈ visited → adjacent g v x → x ∈ visited) ∧
  (∀ i c, islands !! i = Some c →
     ∃ n, head c = Some n ∧ n ∈ Nodes g ∧ ∀ x, x ∈ c → rtc (adjacent g) n x) ∧
  ((∀ v x, adjacent g v x → adjacent g x v) →
   ∀ i c v x, islands !! i = Some c → v ∈ c → adjacent g v x → x ∈ c).

Lemma visit_node_components g st (n : string) :
  n ∈ Nodes g → components_inv g st → components_inv g (visit_node g st n).
Proof.
  destruct st as [[visited isl] n2i]. intros Hn (Hvis & Hclosed & Hheads & Hsym).
  unfold visit_node. destruct (decide (n ∈ visited)) as [Hin|Hin]; [done|].
  destruct (dfs_component g [n] visited [])
    as (new & -> & Hfresh & Hstack & Hreach & Hcl & Hhead).
  simpl.
  assert (∀ x, x ∈ list_to_set new ∪ visited ↔ x ∈ visited ∨ x ∈ new) as Hvis'.
  { intros x. rewrite elem_of_union, elem_of_list_to_set. tauto. }
  assert (∀ i c, (isl ++ [new]) !! i = Some c → isl !! i = Some c ∨ c = new) as Hlook.
  { intros i c [Hc|[_ Hc]]%lookup_app_Some; [by left|right].
    destruct (i - List.length isl) as [|k]; simpl in Hc; by simplify_eq. }
  split; [|split; [|split]].
  - intros x. rewrite concat_app, elem_of_app. simpl. rewrite app_nil_r.
    rewrite Hvis', Hvis. tauto.
  - intros v x Hv Hvx. apply Hvis'. apply Hvis' in Hv as [Hv|Hv].
    + left. by apply (Hclosed v).
    + by apply (Hcl v).
  - intros i c [Hc | ->]%Hlook; [by apply (Hheads i)|].
    exists n. split; [by apply Hhead|]. split; [done|].
    intros x Hx. destruct (Hreach x Hx) as (s & ->%list_elem_of_singleton & Hsx). done.
  - intros Hs i c v x [Hc | ->]%Hlook Hv Hvx; [by apply (Hsym Hs i c v)|].
    destruct (Hcl v x Hv Hvx) as [Hx|Hx]; [|done].
    exfalso. apply (Hfresh v Hv). apply (Hclosed x); [done|]. by apply Hs.
Qed.

Lemma visit_nodes_components g (ns : list string) st :
  (∀ n, n ∈ ns → n ∈ Nodes g) → components_inv g st →
  components_inv g (foldl (visit_node g) st ns).
Proof.
  revert st. induction ns as [|n ns IH]; intros st Hns Hinv; simpl; [done|].
  apply IH.
  - intros m Hm. apply Hns. by apply elem_of_cons; right.
  - apply visit_node_components; [|done]. apply Hns. by apply elem_of_cons; left.
Qed.

Lemma computeIslands_components g :
  (∀ i c, (computeIslands g).1 !! i = Some c →
     ∃ n, head c = Some n ∧ n ∈ Nodes g ∧ ∀ x, x ∈ c → rtc (adjacent g) n x) ∧
  ((∀ v x, adjacent g v x → adjacent g x v) →
   ∀ i c v x, (computeIslands g).1 !! i = Some c → v ∈ c → adjacent g v x → x ∈ c).
Proof.
  unfold computeIslands.
  pose proof (visit_nodes_components g (Nodes g) (∅, [], ∅)) as Hinv.
  destruct (foldl (visit_node g) (∅, [], ∅) (Nodes g)) as [[visited isl] n2i].
  destruct Hinv as (_ & _ & Hheads & Hsym); [done| |done].
  split; [|split; [|split]]; simpl.
  - intros x. rewrite elem_of_nil. set_solver.
  - intros v x Hv. set_solver.
  - intros i c Hc. by rewrite lookup_nil in Hc.
  - intros _ i c v x Hc. by rewrite lookup_nil in Hc.
Qed.

(** The islands started by a run of the loop: their first nodes are taken,
    in order, from the nodes the run goes through. *)
Lemma visit_nodes_heads g (ns : list string) st :
  ∃ added heads,
    (foldl (visit_node g) st ns).1.2 = st.1.2 ++ added ∧
    Forall2 (λ c h, head c = Some h) added heads ∧
    heads `sublist_of` ns.
Proof.
  revert st. induction ns as [|n ns IH]; intros st; simpl.
  - exists [], []. rewrite app_nil_r. split; [done|]. split; [constructor|done].
  - destruct (IH (visit_node g st n)) as (added & heads & -> & Hheads & Hsub).
    destruct st as [[visited isl] n2i]. unfold visit_node.
    destruct (decide (n ∈ visited)) as [Hin|Hin]; simpl.
    + exists added, heads. split; [done|]. split; [done|]. by apply sublist_cons.
    + destruct (dfs_component g [n] visited [])
        as (new & -> & _ & _ & _ & _ & Hhead).
      simpl. exists (new :: added), (n :: heads).
      split; [by rewrite <- app_assoc|]. split; [|by apply sublist_skip].
      constructor; [|done]. by apply Hhead.
Qed.

Lemma symmetric_rtc {A} (R : relation A) (x y : A) :
  (∀ a b, R a b → R b a) → rtc R x y → rtc R y x.
Proof.
  intros Hsym. induction 1 as [x|x z y Hxz _ IH]; [done|].
  apply (rtc_r y z x); [done|]. by apply Hsym.
Qed.

Lemma elem_of_neighbours (nodes : list string) (edges : list (list string)) (a b : string) :
  b ∈ neighbours nodes edges a ↔ linked nodes edges a b.
Proof.
  unfold neighbours, linked. induction edges as [|e edges IH]; simpl.
  - rewrite elem_of_nil. split; [done|]. intros (_ & _ & [H|H]); by apply elem_of_nil in H.
  - rewrite elem_of_app, IH, !elem_of_cons. clear IH.
    assert (b ∈ edge_contrib nodes a e ↔ a ∈ nodes ∧ b ∈ nodes ∧ ([a; b] = e ∨ [b; a] = e)) as ->.
    { destruct e as [|x [|y [|z rest]]]; simpl;
        try (rewrite elem_of_nil; split; [done|]; by intros (_ & _ & [?|?])).
      destruct (decide (x ∈ nodes ∧ y ∈ nodes)) as [[Hx Hy]|Hn].
      - rewrite elem_of_app. split.
        + intros [Hb|Hb]; case_decide; try (by apply elem_of_nil in Hb);
            apply list_elem_of_singleton in Hb; subst; auto.
        + intros (_ & _ & [[= <- <-]|[= <- <-]]).
          * left. rewrite decide_True by done. by apply list_elem_of_singleton.
          * right. rewrite decide_True by done. by apply list_elem_of_singleton.
      - rewrite elem_of_nil. split; [done|].
        intros (Ha & Hb & [[= <- <-]|[= <- <-]]); tauto. }
    tauto.
Qed.

Lemma adjacent_NewGraph (nodes : list string) (edges : list (list string)) (a b : string) :
  adjacent (NewGraph nodes edges) a b ↔ linked nodes edges a b.
Proof.
  unfold adjacent. destruct (NewGraph_lookup nodes edges) as (adj & -> & Hadj). simpl.
  rewrite Hadj. destruct (decide (a ∈ nodes)) as [Ha|Ha]; simpl.
  - apply elem_of_neighbours.
  - rewrite elem_of_nil. split; [done|]. by intros (? & _).
Qed.

Lemma linked_sym (nodes : list string) (edges : list (list string)) (a b : string) :
  linked nodes edges a b → linked nodes edges b a.
Proof. unfold linked. tauto. Qed.

(** On a built graph an island is a connected component: it contains the
    neighbours of its nodes and its nodes are linked to each other. *)
Lemma NewGraph_island_connected (nodes : list string) (edges : list (list string))
    (i : nat) (c : list string) :
  (computeIslands (NewGraph nodes edges)).1 !! i = Some c →
  (∀ x y, x ∈ c → rtc (linked nodes edges) x y → y ∈ c) ∧
  (∀ x y, x ∈ c → y ∈ c → rtc (linked nodes edges) x y).
Proof.
  intros Hc.
  destruct (computeIslands_components (NewGraph nodes edges)) as [Hheads Hclosed].
  assert (∀ v x, adjacent (NewGraph nodes edges) v x → adjacent (NewGraph nodes edges) x v)
    as Hsym.
  { intros v x. rewrite !adjacent_NewGraph. apply linked_sym. }
  assert (∀ x y, rtc (adjacent (NewGraph nodes edges)) x y → rtc (linked nodes edges) x y)
    as Hsub.
  { intros x y. apply rtc_subrel. intros a b. by rewrite adjacent_NewGraph. }
  split.
  - intros x y Hx Hxy. induction Hxy as [x|x z y Hxz _ IH]; [done|].
    apply IH. apply (Hclosed Hsym i c x z); [done..|]. by apply adjacent_NewGraph.
  - intros x y Hx Hy. destruct (Hheads i c Hc) as (n & _ & _ & Hreach).
    transitivity n.
    + apply symmetric_rtc; [apply linked_sym|]. by apply Hsub, Hreach.
    + by apply Hsub, Hreach.
Qed.

(** X1: on a built graph two declared nodes have the same island index
    exactly when a chain of kept input edges, each taken in either
    direction, leads from one to the other. *)
Theorem computeIslands_connected_components (nodes : list string) (edges : list (list string))
    (x y : string) :
  x ∈ nodes → y ∈ nodes →
  let P := computeIslands (NewGraph nodes edges) in
  (∃ i, P.2 !! x = Some i ∧ P.2 !! y = Some i) ↔ rtc (linked nodes edges) x y.
Proof.
  intros Hx Hy P. subst P.
  destruct (computeIslands_spec (NewGraph nodes edges)) as (_ & Hidx & Hall & _).
  split.
  - intros (i & (c & Hc & Hxc)%Hidx & (c' & Hc' & Hyc)%Hidx). simplify_eq.
    destruct (NewGraph_island_connected nodes edges i c Hc) as [_ Hconn]. by apply Hconn.
  - intros Hxy. apply Hall, elem_of_concat in Hx as (i & c & Hc & Hxc).
    destruct (NewGraph_island_connected nodes edges i c Hc) as [Hclosed _].
    exists i. split; apply Hidx; exists c; (split; [done|]); [done|].
    by apply (Hclosed x y).
Qed.

Lemma computeIslands_connected_components_witness :
  let nodes := ["a"; "b"; "c"]%string in
  let edges := [["a"; "b"]]%string in
  ("a"%string ∈ nodes ∧ "b"%string ∈ nodes) ∧
  ((∃ i, (computeIslands (NewGraph nodes edges)).2 !! "a"%string = Some i ∧
         (computeIslands (NewGraph nodes edges)).2 !! "b"%string = Some i)
   ↔ rtc (linked nodes edges) "a"%string "b"%string).
Proof.
  assert ("a"%string ∈ ["a"; "b"; "c"]%string) as Ha by (apply elem_of_cons; by left).
  assert ("b"%string ∈ ["a"; "b"; "c"]%string) as Hb
    by (apply elem_of_cons; right; apply elem_of_cons; by left).
  split; [by split|].
  exact (computeIslands_connected_components _ [["a"; "b"]]%string _ _ Ha Hb).
Defined.

(** X2: on any graph, built or not, every declared node lies in an island,
    no node lies in two islands or twice in one, the index maps a node to
    [i] exactly when island [i] contains it, and every island consists of
    nodes reachable through the adjacency lists from its first node, which
    is a declared node. *)
Theorem computeIslands_any_graph g :
  let P := computeIslands g in
  (∀ x, x ∈ Nodes g → ∃ i c, P.1 !! i = Some c ∧ x ∈ c) ∧
  NoDup (concat P.1) ∧
  (∀ x i, P.2 !! x = Some i ↔ ∃ c, P.1 !! i = Some c ∧ x ∈ c) ∧
  (∀ i c, P.1 !! i = Some c →
     ∃ n, head c = Some n ∧ n ∈ Nodes g ∧ ∀ x, x ∈ c → rtc (adjacent g) n x).
Proof.
  intros P. subst P.
  destruct (computeIslands_spec g) as (Hnd & Hidx & Hall & _).
  destruct (computeIslands_components g) as [Hheads _].
  split; [|done]. intros x Hx. by apply elem_of_concat, Hall.
Qed.

(** X3: no island is empty, and the first nodes of the islands, in island
    order, are picked in order from [g.Nodes]; so there are at most as many
    islands as declared nodes. *)
Theorem computeIslands_heads g :
  ∃ heads,
    Forall2 (λ c h, head c = Some h) (computeIslands g).1 heads ∧
    heads `sublist_of` Nodes g ∧
    List.length (computeIslands g).1 ≤ List.length (Nodes g).
Proof.
  unfold computeIslands.
  destruct (visit_nodes_heads g (Nodes g) (∅, [], ∅)) as (added & heads & Heq & Hheads & Hsub).
  destruct (foldl (visit_node g) (∅, [], ∅) (Nodes g)) as [[visited isl] n2i].
  simpl in *. subst isl. exists heads. split; [done|]. split; [done|].
  rewrite (Forall2_length _ _ _ Hheads). by apply sublist_length.
Qed.

(** X4: on a built graph a declared node that no kept edge touches is an
    island on its own. *)
Theorem computeIslands_isolated (nodes : list string) (edges : list (list string)) (n : string) :
  n ∈ nodes → (∀ x, ¬ linked nodes edges n x) →
  [n] ∈ (computeIslands (NewGraph nodes edges)).1.
Proof.
  intros Hn Hiso.
  destruct (computeIslands_spec (NewGraph nodes edges)) as (Hnd & _ & Hall & _).
  destruct (NoDup_concat_lookup _ Hnd) as [Hnd1 _].
  apply Hall, elem_of_concat in Hn as (i & c & Hc & Hnc).
  destruct (NewGraph_island_connected nodes edges i c Hc) as [_ Hconn].
  assert (∀ x, x ∈ c → x = n) as Hall_n.
  { intros x Hx. specialize (Hconn n x Hnc Hx).
    destruct Hconn as [|n z x Hnz _]; [done|]. by destruct (Hiso z). }
  apply list_elem_of_lookup. exists i. rewrite Hc. f_equal.
  specialize (Hnd1 i c Hc). destruct c as [|a [|b c]].
  - by apply elem_of_nil in Hnc.
  - f_equal. apply Hall_n. by apply elem_of_cons; left.
  - exfalso. apply NoDup_cons in Hnd1 as [Hab _]. apply Hab.
    rewrite (Hall_n a), (Hall_n b); [by apply elem_of_cons; left|..].
    + apply elem_of_cons; right. by apply elem_of_cons; left.
    + by apply elem_of_cons; left.
Qed.

Lemma computeIslands_isolated_witness :
  let nodes := ["a"; "b"; "c"]%string in
  let edges := [["a"; "b"]; ["c"; "x"]]%string in
  ("c"%string ∈ nodes ∧ ∀ x, ¬ linked nodes edges "c"%string x) ∧
  ["c"%string] ∈ (computeIslands (NewGraph nodes edges)).1.
Proof.
  assert ("c"%string ∈ ["a"; "b"; "c"]%string) as Hc by (do 2 (apply elem_of_cons; right);
    apply elem_of_cons; by left).
  assert (∀ x, ¬ linked ["a"; "b"; "c"]%string [["a"; "b"]; ["c"; "x"]]%string "c"%string x) as Hiso.
  { intros x (_ & Hx & [He|He]);
      repeat (apply elem_of_cons in He as [He|He]);
      try (by apply elem_of_nil in He); simplify_eq.
    repeat (apply elem_of_cons in Hx as [Hx|Hx]; [discriminate|]).
    by apply elem_of_nil in Hx. }
  split; [by split|].
  exact (computeIslands_isolated _ _ _ Hc Hiso).
Defined.

End Components.

(** * More on [aggregate] *)

Section AggregateEdges.

Implicit Types (ord : list (string * float)) (totals : list float).
Implicit Types (n2i : gmap string nat) (s : Grid).

Lemma sum_measurements_indexed n2i ord totals :
  sum_measurements n2i ord totals
  = sum_measurements n2i (filter (λ kv : string * float, is_Some (n2i !! kv.1)) ord) totals.
Proof.
  revert totals. induction ord as [|[k v] ord IH]; intros totals; [done|].
  destruct (n2i !! k) as [idx|] eqn:Hk.
  - rewrite filter_cons_True by (simpl; by rewrite Hk). simpl.
    destruct (add_measurement n2i totals (k, v)); simpl; [apply IH|done].
  - rewrite filter_cons_False by (simpl; rewrite Hk; by intros [? ?]). simpl.
    unfold add_measurement. simpl. rewrite Hk. simpl. apply IH.
Qed.

Lemma fmap_Island_zip_with (isl : list (list string)) totals :
  List.length totals = List.length isl →
  Island <$> zip_with mkIslandMeasurement isl totals = isl.
Proof.
  revert totals. induction isl as [|c isl IH]; intros [|t totals]; simpl; try done.
  intros [= Hlen]. by rewrite IH.
Qed.

Lemma sum_measurements_int_None (n2z : gmap string Z) ord totals :
  sum_measurements_int n2z ord totals = None
  ↔ ∃ k v i, (k, v) ∈ ord ∧ n2z !! k = Some i ∧ (i < 0 ∨ Z.of_nat (List.length totals) ≤ i)%Z.
Proof.
  revert totals. induction ord as [|[k v] ord IH]; intros totals; simpl.
  - split; [done|]. by intros (k & v & i & ?%elem_of_nil & _).
  - unfold add_measurement_int. simpl. destruct (n2z !! k) as [idx|] eqn:Hk; simpl.
    + destruct (decide (idx < 0)%Z) as [Hneg|Hpos]; simpl.
      { split; [intros _|done]. exists k, v, idx.
        split; [by apply elem_of_cons; left|]. split; [done|]. by left. }
      destruct (totals !! Z.to_nat idx) as [t|] eqn:Ht; simpl.
      * rewrite IH, length_insert. apply lookup_lt_Some in Ht. split.
        -- intros (k' & v' & i & Hin & Hi & Hlen). exists k', v', i.
           split; [by apply elem_of_cons; right|done].
        -- intros (k' & v' & i & [[= -> ->]|Hin]%elem_of_cons & Hi & Hlen).
           ++ simplify_eq. lia.
           ++ by exists k', v', i.
      * split; [intros _|done]. exists k, v, idx.
        split; [by apply elem_of_cons; left|]. split; [done|].
        apply lookup_ge_None in Ht. lia.
    + rewrite IH. split.
      * intros (k' & v' & i & Hin & Hi & Hlen). exists k', v', i.
        split; [by apply elem_of_cons; right|done].
      * intros (k' & v' & i & [[= -> ->]|Hin]%elem_of_cons & Hi & Hlen).
        -- congruence.
        -- by exists k', v', i.
Qed.

Lemma sum_measurements_int_length (n2z : gmap string Z) ord totals totals' :
  sum_measurements_int n2z ord totals = Some totals' →
  List.length totals' = List.length totals.
Proof.
  revert totals. induction ord as [|[k v] ord IH]; intros totals; simpl.
  - by intros [= ->].
  - unfold add_measurement_int. simpl. destruct (n2z !! k) as [idx|]; simpl; [|apply IH].
    destruct (decide (idx < 0)%Z); simpl; [done|].
    destruct (totals !! Z.to_nat idx) as [t|]; simpl; [|done].
    intros ->%IH. apply length_insert.
Qed.

Lemma sum_measurements_int_nat n2i ord totals :
  sum_measurements_int (Z.of_nat <$> n2i) ord totals = sum_measurements n2i ord totals.
Proof.
  revert totals. induction ord as [|[k v] ord IH]; intros totals; simpl; [done|].
  unfold add_measurement_int, add_measurement. simpl. rewrite lookup_fmap.
  destruct (n2i !! k) as [idx|]; simpl; [|apply IH].
  rewrite decide_False by lia. rewrite Nat2Z.id.
  destruct (totals !! idx) as [t|]; simpl; [apply IH|done].
Qed.

(** X5: with the island index as the [int] it is in the code, [aggregate]
    panics exactly when the entries it ranges over hold a value for a node
    whose index is negative or not below the number of islands; whenever it
    returns, the result lists the islands themselves, one entry each, in
    order; and on a state, whose indices are naturals, it is [aggregate]. *)
Theorem aggregate_panics_iff ord (isl : list (list string)) (n2z : gmap string Z) :
  (aggregate_int ord isl n2z = None
   ↔ ∃ k v i, (k, v) ∈ ord ∧ n2z !! k = Some i ∧ (i < 0 ∨ Z.of_nat (List.length isl) ≤ i)%Z) ∧
  (∀ res, aggregate_int ord isl n2z = Some res → Island <$> res = isl) ∧
  (∀ s, aggregate_int ord (islands s) (Z.of_nat <$> nodeToIsland s) = aggregate ord s).
Proof.
  unfold aggregate_int. split; [|split].
  - pose proof (sum_measurements_int_None n2z ord
                  (replicate (List.length isl) 0%float)) as Hnone.
    rewrite length_replicate in Hnone. rewrite <- Hnone.
    destruct (sum_measurements_int _ _ _); simpl; split; done.
  - intros res.
    destruct (sum_measurements_int _ _ _) as [totals|] eqn:Hsum; simpl; [|done].
    intros [= <-]. apply fmap_Island_zip_with.
    apply sum_measurements_int_length in Hsum. by rewrite Hsum, length_replicate.
  - intros s. unfold aggregate. by rewrite sum_measurements_int_nat.
Qed.

(** X6: values stored for nodes that have no island in the current
    topology do not change the result of [aggregate]: it is the same as
    over the entries of the indexed nodes alone. *)
Theorem aggregate_ignores_stale ord s :
  aggregate ord s
  = aggregate (filter (λ kv : string * float, is_Some (nodeToIsland s !! kv.1)) ord) s.
Proof. unfold aggregate. by rewrite sum_measurements_indexed. Qed.

End AggregateEdges.

(** * More on [update] and [Loop] *)

Section EngineRuns.

Implicit Types (s : Grid) (ord : list (string * float)) (evt : Event).

Local Arguments update : simpl never.

(** The state a measurement update leads to. *)
Definition measured s (m : NodeMeasurement) : Grid :=
  if HasNode (graph s) (Node m) then store s (Node m) (Value m) else s.

(** A received event with the iteration order its processing uses. *)
Definition recv (p : Event * list (string * float)) : Selected := Recv p.1 p.2.

(** The reply channel of an event. *)
Definition reply_to evt : option chan :=
  match evt with
  | GraphUpdate _ r => r
  | MeasurementUpdate _ r => r
  | OtherEvent => None
  end.

(** The graphs of the topology updates that the loop receives before it
    stops. *)
Fixpoint graphs_received (trace : list Selected) : list Graph :=
  match trace with
  | Recv (GraphUpdate g _) _ :: rest => g :: graphs_received rest
  | Recv _ _ :: rest => graphs_received rest
  | _ => []
  end.

Lemma update_measured ord s (m : NodeMeasurement) (r : option chan) (s' : Grid)
    (out : list (chan * Msg)) :
  update ord s (MeasurementUpdate m r) = Some (s', out) →
  s' = measured s m ∧ out.*1 = option_list r.
Proof.
  rewrite update_MeasurementUpdate. fold (measured s m).
  destruct (aggregate ord (measured s m)); simpl; [|done].
  intros [= <- <-]. split; [done|]. by destruct r.
Qed.

Lemma measured_coherent s (m : NodeMeasurement) : coherent s → coherent (measured s m).
Proof. unfold measured. by destruct (HasNode _ _). Qed.

Lemma update_measured_coherent ord s (m : NodeMeasurement) (r : option chan) :
  coherent s → ∃ out, update ord s (MeasurementUpdate m r) = Some (measured s m, out).
Proof.
  intros Hco. rewrite update_MeasurementUpdate. fold (measured s m).
  rewrite (aggregate_coherent ord _ (measured_coherent s m Hco)). simpl. eauto.
Qed.

(** X7: the last value wins. After a measurement update for a node, a
    second update for the same node behaves as it would have on the state
    before the first: same resulting state, same reply. *)
Theorem update_measurement_overwrite ord1 ord2 s (id : string) (v1 v2 : float)
    (r1 r2 : option chan) (s1 : Grid) (out1 : list (chan * Msg)) :
  update ord1 s (MeasurementUpdate {| Node := id; Value := v1 |} r1) = Some (s1, out1) →
  update ord2 s1 (MeasurementUpdate {| Node := id; Value := v2 |} r2)
  = update ord2 s (MeasurementUpdate {| Node := id; Value := v2 |} r2).
Proof.
  intros [-> _]%update_measured. rewrite !update_MeasurementUpdate.
  unfold measured. simpl. destruct (HasNode (graph s) id) eqn:Hn; simpl; [|by rewrite Hn].
  rewrite Hn. unfold store. simpl. by rewrite insert_insert_eq.
Qed.

(** X8: measurement updates for two different nodes commute as far as the
    state goes: on a coherent state both orders complete and end in the
    same state. *)
Theorem update_measurements_commute s (m1 m2 : NodeMeasurement) (r1 r2 : option chan)
    (o1 o2 o3 o4 : list (string * float)) :
  coherent s → Node m1 ≠ Node m2 →
  ∃ sf outs outs',
    Loop s [Recv (MeasurementUpdate m1 r1) o1; Recv (MeasurementUpdate m2 r2) o2]
    = Some (sf, outs) ∧
    Loop s [Recv (MeasurementUpdate m2 r2) o3; Recv (MeasurementUpdate m1 r1) o4]
    = Some (sf, outs').
Proof.
  intros Hco Hne. simpl.
  destruct (update_measured_coherent o1 s m1 r1 Hco) as [out1 ->]. simpl.
  destruct (update_measured_coherent o2 _ m2 r2 (measured_coherent s m1 Hco)) as [out2 ->].
  destruct (update_measured_coherent o3 s m2 r2 Hco) as [out3 ->]. simpl.
  destruct (update_measured_coherent o4 _ m1 r1 (measured_coherent s m2 Hco)) as [out4 ->].
  simpl. eexists _, _, _. split; [done|]. do 2 f_equal.
  unfold measured.
  destruct (HasNode (graph s) (Node m1)) eqn:H1, (HasNode (graph s) (Node m2)) eqn:H2;
    simpl; rewrite ?H1, ?H2; try done.
  unfold store. simpl. f_equal. by apply insert_insert_ne.
Qed.

Lemma update_store_keys ord s evt (s' : Grid) (out : list (chan * Msg)) (k : string) :
  update ord s evt = Some (s', out) → is_Some (measurements s' !! k) →
  is_Some (measurements s !! k) ∨ HasNode (graph s) k = true.
Proof.
  destruct evt as [g r|m r|].
  - rewrite update_GraphUpdate. intros [= <- _]. by left.
  - intros [-> _]%update_measured. unfold measured.
    destruct (HasNode (graph s) (Node m)) eqn:Hn; [|by left].
    simpl. destruct (decide (Node m = k)) as [<-|Hk]; [by right|].
    rewrite lookup_insert_ne by done. by left.
  - intros [= <- _]. by left.
Qed.

Lemma Loop_store_keys s (trace : list Selected) (sf : Grid) (outs : list (chan * Msg))
    (k : string) :
  Loop s trace = Some (sf, outs) → is_Some (measurements sf !! k) →
  is_Some (measurements s !! k)
  ∨ ∃ g, g ∈ graph s :: graphs_received trace ∧ HasNode g k = true.
Proof.
  revert s outs. induction trace as [|[| |e ord] trace IH]; intros s outs; simpl;
    try (intros [= <- _]; by left).
  destruct (update ord s e) as [[s' out]|] eqn:Hupd; simpl; [|done].
  destruct (Loop s' trace) as [[s'' outs']|] eqn:HL; simpl; [|done].
  intros [= <- _] Hk.
  destruct (IH s' outs' HL Hk) as [Hs'|(g & Hg & HgN)].
  - destruct (update_store_keys ord s e s' out k Hupd Hs') as [?|?]; [by left|].
    right. exists (graph s). split; [by apply elem_of_cons; left|done].
  - right. exists g. split; [|done].
    apply elem_of_cons in Hg as [->|Hg].
    + destruct e as [g' r|m r|].
      * rewrite update_GraphUpdate in Hupd. simplify_eq. simpl.
        apply elem_of_cons; right. by apply elem_of_cons; left.
      * apply update_measured in Hupd as [-> _].
        apply elem_of_cons; left. unfold measured.
        by destruct (HasNode (graph s) (Node m)).
      * unfold update in Hupd. simplify_eq. by apply elem_of_cons; left.
    + apply elem_of_cons; right. destruct e; simpl; [by apply elem_of_cons; right|done..].
Qed.

(** X9: whatever the loop receives after [NewGrid], it completes, and the
    store it ends with holds values only for identifiers that were nodes
    (by [HasNode]) of a topology it received: a measurement for a node that
    no topology ever had is never retained. *)
Theorem Loop_store_declared (trace : list Selected) :
  ∃ sf outs, Loop NewGrid trace = Some (sf, outs) ∧
    ∀ k, is_Some (measurements sf !! k) →
      ∃ g, g ∈ graphs_received trace ∧ HasNode g k = true.
Proof.
  destruct (Loop_total NewGrid trace coherent_NewGrid) as (sf & outs & HL & _).
  exists sf, outs. split; [done|]. intros k Hk.
  destruct (Loop_store_keys NewGrid trace sf outs k HL Hk) as [Hk'|(g & Hg & HgN)].
  - simpl in Hk'. rewrite lookup_empty in Hk'. by destruct Hk'.
  - apply elem_of_cons in Hg as [->|Hg]; [|by exists g].
    unfold HasNode in HgN. simpl in HgN. apply bool_decide_eq_true in HgN.
    rewrite lookup_empty in HgN. by destruct HgN.
Qed.

(** X11: one reply per request. When the loop completes a run of events,
    the channels it has sent on are, in order, the reply channels of the
    events that carry one: each such event is answered once, the others
    never. *)
Theorem Loop_replies s (evs : list (Event * list (string * float))) (sf : Grid)
    (outs : list (chan * Msg)) :
  Loop s (recv <$> evs) = Some (sf, outs) →
  outs.*1 = omap (λ p, reply_to p.1) evs.
Proof.
  revert s outs. induction evs as [|[e ord] evs IH]; intros s outs; csimpl.
  - by intros [= _ <-].
  - destruct (update ord s e) as [[s' out]|] eqn:Hupd; csimpl; [|done].
    destruct (Loop s' (recv <$> evs)) as [[s'' outs']|] eqn:HL; csimpl; [|done].
    intros [= <- <-]. rewrite fmap_app, (IH s' outs' HL).
    assert (out.*1 = option_list (reply_to e)) as ->.
    { destruct e as [g r|m r|].
      - rewrite update_GraphUpdate in Hupd. simplify_eq. by destruct r.
      - by apply update_measured in Hupd as [_ ?].
      - unfold update in Hupd. by simplify_eq. }
    by destruct (reply_to e).
Qed.

(** X12: a topology update with a built graph followed by a measurement
    update: the run completes from any state, the value is stored exactly
    when the node is among the declared nodes, and the topology is the one
    installed. *)
Theorem Loop_graph_then_measurement s (nodes : list string) (edges : list (list string))
    (rg r : option chan) (og ord : list (string * float)) (id : string) (v : float) :
  ∃ sf outs,
    Loop s [Recv (GraphUpdate (NewGraph nodes edges) rg) og;
            Recv (MeasurementUpdate {| Node := id; Value := v |} r) ord] = Some (sf, outs) ∧
    topology sf = installed (NewGraph nodes edges) ∧
    measurements sf = (if decide (id ∈ nodes) then <[id := v]> (measurements s)
                       else measurements s).
Proof.
  simpl. rewrite update_GraphUpdate. simpl.
  set (s1 := {| graph := NewGraph nodes edges;
                islands := (computeIslands (NewGraph nodes edges)).1;
                nodeToIsland := (computeIslands (NewGraph nodes edges)).2;
                measurements := measurements s |}).
  destruct (update_measured_coherent ord s1 {| Node := id; Value := v |} r) as [out ->].
  { apply coherent_computeIslands. }
  simpl. eexists _, _. split; [done|]. unfold measured. simpl.
  assert (HasNode (NewGraph nodes edges) id = bool_decide (id ∈ nodes)) as ->.
  { destruct (NewGraph_lookup nodes edges) as (adj & HE & Hadj).
    unfold HasNode. rewrite HE. apply bool_decide_ext. rewrite Hadj.
    destruct (decide (id ∈ nodes)); split; try done; first [by eexists|by intros [? ?]]. }
  destruct (decide (id ∈ nodes)) as [Hin|Hin].
  - by rewrite bool_decide_eq_true_2.
  - by rewrite bool_decide_eq_false_2.
Qed.

End EngineRuns.

(** * Middleware and routes *)

Section Middleware.

Import Foundation.

Context {A : Type}.
Implicit Types (handler : Handler A) (mw : list (Middleware A)) (r : Request).

(** A middleware applied to a handler; a nil middleware leaves it as it is. *)
Definition wrap_one (m : Middleware A) handler : Handler A :=
  match m with
  | Some mwFunc => mwFunc handler
  | None => handler
  end.

Lemma wrap_loop_S (i : nat) mw handler (m : Middleware A) :
  mw !! i = Some m → wrap_loop (S i) mw handler = wrap_loop i mw (wrap_one m handler).
Proof. intros Hm. cbn [wrap_loop]. unfold Middleware in *. rewrite Hm. by destruct m. Qed.

Lemma wrap_loop_take (n : nat) mw handler :
  n ≤ List.length mw →
  wrap_loop n mw handler = foldr wrap_one handler (take n mw).
Proof.
  revert handler. induction n as [|i IH]; intros handler Hn; [done|].
  destruct (lookup_lt_is_Some_2 mw i) as [m Hm]; [lia|].
  rewrite (wrap_loop_S i mw handler m Hm), IH by lia.
  by rewrite (take_S_r mw i m Hm), foldr_app.
Qed.

Lemma WrapMiddleware_foldr handler mw :
  WrapMiddleware handler mw = foldr wrap_one handler mw.
Proof.
  unfold WrapMiddleware. rewrite wrap_loop_take by done. by rewrite firstn_all.
Qed.

(** X13: [WrapMiddleware] applies the middlewares from the last to the
    first, so the first one of the slice is the outermost and runs first;
    wrapping with a concatenation is wrapping twice, inner part first; and a
    nil middleware is skipped wherever it stands. *)
Theorem WrapMiddleware_order handler mw :
  WrapMiddleware handler mw = foldr wrap_one handler mw ∧
  (∀ mw1 mw2, mw = mw1 ++ mw2 →
     WrapMiddleware handler mw = WrapMiddleware (WrapMiddleware handler mw2) mw1) ∧
  (∀ mw1 mw2, mw = mw1 ++ None :: mw2 →
     WrapMiddleware handler mw = WrapMiddleware handler (mw1 ++ mw2)).
Proof.
  split; [apply WrapMiddleware_foldr|]. split.
  - intros mw1 mw2 ->. by rewrite !WrapMiddleware_foldr, foldr_app.
  - intros mw1 mw2 ->. by rewrite !WrapMiddleware_foldr, !foldr_app.
Qed.

(** X14: a route registered by [All] answers 405 to every request whose
    method is not POST, whatever its content type; answers 415 to a POST whose
    Content-Type does not parse to application/json; and hands every other
    request, unchanged, to the handler. *)
Theorem route_guards (ParseMediaType : string → option string) handler r :
  Routes.route ParseMediaType handler r
  = if decide (Method r = Routes.MethodPost) then
      if decide (ParseMediaType (ContentType r) = Some "application/json")
      then handler r
      else HttpError StatusUnsupportedMediaType
    else HttpError StatusMethodNotAllowed.
Proof.
  unfold Routes.route. rewrite WrapMiddleware_foldr. simpl.
  unfold RequireMethod, RequireJSONContentType.
  destruct (decide (Method r = Routes.MethodPost)) as [Hm|Hm].
  - rewrite decide_False by (by intros ?).
    destruct (ParseMediaType (ContentType r)) as [mt|]; [|by rewrite decide_False].
    destruct (decide (mt = "application/json")) as [->|Hmt].
    + rewrite decide_False by (by intros ?). by rewrite decide_True.
    + rewrite decide_True by done. rewrite decide_False; [done|]. by intros [= ?].
  - by rewrite decide_True.
Qed.

End Middleware.

Section RemoteIP.

Import Foundation.
Import Stdlib.Strings.Ascii.

(** The string has a comma among its bytes. *)
Fixpoint has_comma (s : string) : bool :=
  match s with
  | EmptyString => false
  | String c rest => bool_decide (c = ","%char) || has_comma rest
  end.

Lemma first_hop_spec (xff : string) :
  has_comma (first_hop xff) = false ∧
  (if has_comma xff then ∃ rest, xff = first_hop xff +:+ "," +:+ rest
   else first_hop xff = xff).
Proof.
  induction xff as [|c xff [IH1 IH2]]; simpl; [done|].
  destruct (decide (c = ","%char)) as [->|Hc]; simpl.
  - split; [done|]. by exists xff.
  - rewrite bool_decide_eq_false_2 by done. simpl. split; [done|].
    destruct (has_comma xff).
    + destruct IH2 as [rest Hrest]. exists rest.
      change (String c xff = String c (first_hop xff +:+ "," +:+ rest)). by rewrite <- Hrest.
    + by rewrite IH2.
Qed.

(** X15: with a non-empty X-Forwarded-For header [remoteIP] returns its
    part before the first comma (the whole header when it has none),
    whatever the remote address and without trimming anything; so a header
    that starts with a comma gives the empty string. *)
Theorem remoteIP_first_hop (SplitHostPort : string → option string) (r : Request) :
  XForwardedFor r ≠ "" →
  let ip := remoteIP SplitHostPort r in
  has_comma ip = false ∧
  (if has_comma (XForwardedFor r) then ∃ rest, XForwardedFor r = ip +:+ "," +:+ rest
   else ip = XForwardedFor r) ∧
  (∀ rest, XForwardedFor r = "," +:+ rest → ip = "").
Proof.
  intros Hx ip. subst ip. unfold remoteIP. rewrite decide_True by done.
  destruct (first_hop_spec (XForwardedFor r)) as [H1 H2].
  split; [done|]. split; [done|]. by intros rest ->.
Qed.

Lemma remoteIP_first_hop_witness :
  let r := {| Method := "GET"; ContentType := ""; XForwardedFor := "10.0.0.1, 10.0.0.2";
              RemoteAddr := "127.0.0.1:4000" |} in
  XForwardedFor r ≠ "" ∧ remoteIP (λ _, None) r = "10.0.0.1".
Proof.
  assert (XForwardedFor {| Method := "GET"; ContentType := "";
                           XForwardedFor := "10.0.0.1, 10.0.0.2";
                           RemoteAddr := "127.0.0.1:4000" |} ≠ "") as Hx by done.
  split; [exact Hx|].
  destruct (remoteIP_first_hop (λ _, None) _ Hx) as (_ & _ & _). reflexivity.
Defined.

End RemoteIP.

(** * More on the handlers *)

Section HandlerWaits.

Import Api.

Lemma foldr_min_spec (t : N) (ts : list N) :
  foldr N.min t ts ∈ t :: ts ∧ ∀ x, x ∈ t :: ts → (foldr N.min t ts ≤ x)%N.
Proof.
  induction ts as [|u ts [IHin IHle]]; simpl.
  - split; [by apply elem_of_cons; left|].
    intros x [->|[]%elem_of_nil]%elem_of_cons. done.
  - split.
    + destruct (N.min_spec u (foldr N.min t ts)) as [[_ ->]|[_ ->]].
      * apply elem_of_cons; right. by apply elem_of_cons; left.
      * apply elem_of_cons in IHin as [Heq|Hin]; [by apply elem_of_cons; left|].
        do 2 (apply elem_of_cons; right). done.
    + intros x [->|[->|Hx]%elem_of_cons]%elem_of_cons.
      * specialize (IHle t). etransitivity; [apply N.le_min_r|].
        apply IHle. by apply elem_of_cons; left.
      * apply N.le_min_l.
      * etransitivity; [apply N.le_min_r|]. apply IHle. by apply elem_of_cons; right.
Qed.

(** What a [select] that fires says about its cases: it fires at the
    earliest time at which a case can proceed, not before [now], and runs
    exactly the cases that can proceed then. *)
Lemma select_Some {A} (now : N) (cases : list (option N * A)) (t : N) (fired : list A) :
  select now cases = Some (t, fired) →
  (now ≤ t)%N ∧
  (∀ r a, (Some r, a) ∈ cases → (t ≤ N.max now r)%N) ∧
  (∀ a, a ∈ fired ↔ ∃ r, (Some r, a) ∈ cases ∧ N.max now r = t).
Proof.
  unfold select. destruct (omap (ready_at now) cases) as [|t0 ts] eqn:Hom; [done|].
  intros [= <- <-]. destruct (foldr_min_spec t0 ts) as [Hin Hle].
  rewrite <- Hom in Hin, Hle.
  assert (∀ x, x ∈ omap (ready_at now) cases ↔ ∃ r a, (Some r, a) ∈ cases ∧ N.max now r = x)
    as Hready.
  { intros x. rewrite list_elem_of_omap. split.
    - intros ([[r|] a] & Hc & Hr); unfold ready_at in Hr; simplify_eq/=. eauto.
    - intros (r & a & Hc & <-). by exists (Some r, a). }
  split; [|split].
  - apply Hready in Hin as (r & a & _ & <-). apply N.le_max_l.
  - intros r a Hc. apply Hle, Hready. eauto.
  - intros a. rewrite list_elem_of_fmap. split.
    + intros ([[r|] a'] & -> & [Hr Hc]%list_elem_of_filter);
        unfold ready_at in Hr; simplify_eq/=.
      exists r. split; [done|]. congruence.
    + intros (r & Hc & Hr). exists (Some r, a). split; [done|].
      apply list_elem_of_filter. split; [|done]. unfold ready_at. simpl. by rewrite Hr.
Qed.

Lemma select_fires {A} (now : N) (cases : list (option N * A)) (t : N) (fired : list A) :
  select now cases = Some (t, fired) → ∃ a, a ∈ fired.
Proof.
  intros Hsel. pose proof (select_Some _ _ _ _ Hsel) as (_ & _ & Hfired).
  unfold select in Hsel.
  destruct (omap (ready_at now) cases) as [|t0 ts] eqn:Hom; [done|].
  injection Hsel as Ht _. destruct (foldr_min_spec t0 ts) as [Hin _].
  rewrite <- Hom, Ht in Hin. apply list_elem_of_omap in Hin as ([[r|] a] & Hc & Hr);
    unfold ready_at in Hr; simplify_eq/=.
  exists a. apply Hfired. eauto.
Qed.

Lemma select_None {A} (now : N) (cases : list (option N * A)) :
  select now cases = None → ∀ r a, (Some r, a) ∉ cases.
Proof.
  unfold select. destruct (omap (ready_at now) cases) as [|t0 ts] eqn:Hom; [|done].
  intros _ r a Hc. assert (N.max now r ∈ omap (ready_at now) cases) as Hin.
  { apply list_elem_of_omap. by exists (Some r, a). }
  rewrite Hom in Hin. by apply elem_of_nil in Hin.
Qed.

(** Once enqueued at [now], with a context done at [d] not before [now],
    the wait for the reply ends with a response no later than [d]. *)
Lemma await_reply_bounded (env : Env) (now d : N) (o : Outcome) :
  done env = Some d → (now ≤ d)%N → o ∈ await_reply env now →
  ∃ t status, o = Responds t status ∧ (t ≤ d)%N.
Proof.
  intros Hd Hnow. unfold await_reply.
  destruct (select now _) as [[t statuses]|] eqn:Hsel.
  - intros (status & -> & _)%list_elem_of_fmap. exists t, status. split; [done|].
    apply select_Some in Hsel as (_ & Hle & _).
    specialize (Hle d StatusRequestTimeout). rewrite N.max_r in Hle by done.
    apply Hle. rewrite Hd. apply elem_of_cons; right. by apply elem_of_cons; left.
  - exfalso. apply (select_None _ _ Hsel d StatusRequestTimeout).
    rewrite Hd. apply elem_of_cons; right. by apply elem_of_cons; left.
Qed.

(** X16: every wait of the two handlers is bound to the request context.
    When the context is done at some time, neither handler blocks: each
    possible outcome is a response, given no later than that time. *)
Theorem handlers_bound_by_context (env : Env) (d : N) (o : Outcome) :
  done env = Some d →
  o ∈ graphHandler env ∨ o ∈ measurementsHandler env →
  ∃ t status, o = Responds t status ∧ (t ≤ d)%N.
Proof.
  intros Hd Ho.
  assert (∀ (cases : list (option N * Attempt)),
            (Some d, Cancelled) ∈ cases →
            o ∈ match select 0 cases with
                | Some (t, attempts) => attempts ≫= respond env t
                | None => [Blocks]
                end →
            ∃ t status, o = Responds t status ∧ (t ≤ d)%N) as Hboth.
  { intros cases Hc. destruct (select 0 cases) as [[t attempts]|] eqn:Hsel.
    - apply select_Some in Hsel as (_ & Hle & _).
      specialize (Hle d Cancelled Hc). rewrite N.max_0_l in Hle.
      intros (a & Ha & _)%list_elem_of_bind. destruct a; simpl in Ha.
      + by apply (await_reply_bounded env t d).
      + apply list_elem_of_singleton in Ha as ->. eauto.
      + apply list_elem_of_singleton in Ha as ->. eauto.
    - exfalso. by apply (select_None _ _ Hsel d Cancelled). }
  destruct Ho as [Ho|Ho].
  - apply (Hboth [(slot env, Enqueued); (done env, Cancelled)]); [|done].
    rewrite Hd. apply elem_of_cons; right. by apply elem_of_cons; left.
  - apply (Hboth [(slot env, Enqueued); (Some backpressureTimeout, Busy);
                  (done env, Cancelled)]); [|done].
    rewrite Hd. do 2 (apply elem_of_cons; right). by apply elem_of_cons; left.
Qed.

Lemma handlers_bound_by_context_witness :
  let env := {| slot := Some 5%N; done := Some (30 * Millisecond)%N; reply := None |} in
  done env = Some (30 * Millisecond)%N ∧
  Responds (30 * Millisecond)%N StatusRequestTimeout ∈ graphHandler env ∧
  ∃ t status, Responds (30 * Millisecond)%N StatusRequestTimeout = Responds t status
              ∧ (t ≤ 30 * Millisecond)%N.
Proof.
  intros env.
  assert (done env = Some (30 * Millisecond)%N) as Hd by reflexivity.
  assert (Responds (30 * Millisecond)%N StatusRequestTimeout ∈ graphHandler env) as Ho.
  { vm_compute. apply list_elem_of_singleton. reflexivity. }
  split; [exact Hd|]. split; [exact Ho|].
  exact (handlers_bound_by_context env _ _ Hd (or_introl Ho)).
Defined.

(** X17: the measurements handler can answer 200 at time [t] exactly when
    a queue slot frees at some time [s] within the backpressure timeout, the
    reply arrives at some time [r], [t] is the later of the two, and the
    context is not done before either. *)
Theorem measurementsHandler_success (env : Env) (t : N) :
  Responds t StatusOK ∈ measurementsHandler env
  ↔ ∃ s r, slot env = Some s ∧ reply env = Some r ∧ t = N.max s r ∧
      (s ≤ backpressureTimeout)%N ∧
      (∀ d, done env = Some d → (t ≤ d)%N).
Proof.
  unfold measurementsHandler, measurementsHandler_select.
  set (cases := [(slot env, Enqueued); (Some backpressureTimeout, Busy); (done env, Cancelled)]).
  assert (∀ r a, (Some r, a) ∈ cases ↔
            (slot env = Some r ∧ a = Enqueued) ∨ (r = backpressureTimeout ∧ a = Busy)
            ∨ (done env = Some r ∧ a = Cancelled)) as Hcases.
  { intros r a. subst cases. rewrite !elem_of_cons, elem_of_nil. split.
    - intros [[= Hr ->]|[[= -> ->]|[[= Hr ->]|[]]]]; auto.
    - intros [[-> ->]|[[-> ->]|[-> ->]]]; auto. }
  assert (∀ (r : N) (st : nat), (Some r, st) ∈ [(reply env, StatusOK); (done env, StatusRequestTimeout)] ↔
            (reply env = Some r ∧ st = StatusOK) ∨ (done env = Some r ∧ st = StatusRequestTimeout))
    as Hinner.
  { intros r st. rewrite !elem_of_cons, elem_of_nil. split.
    - intros [[= Hr ->]|[[= Hr ->]|[]]]; auto.
    - intros [[-> ->]|[-> ->]]; auto. }
  split.
  - destruct (select 0 cases) as [[t1 attempts]|] eqn:Hsel.
    2:{ intros Hin. by apply list_elem_of_singleton in Hin. }
    apply select_Some in Hsel as (_ & Hle1 & Hfired1).
    intros (a & Ha & Hfa)%list_elem_of_bind.
    apply Hfired1 in Hfa as (s & Hs & Hs1). rewrite N.max_0_l in Hs1. subst t1.
    apply Hcases in Hs as [[Hslot ->]|[[-> ->]|[Hdone ->]]]; simpl in Ha;
      try (apply list_elem_of_singleton in Ha; discriminate Ha).
    unfold await_reply in Ha.
    destruct (select s _) as [[t2 statuses]|] eqn:Hsel2.
    2:{ by apply list_elem_of_singleton in Ha. }
    apply select_Some in Hsel2 as (_ & Hle2 & Hfired2).
    apply list_elem_of_fmap in Ha as (st & [= <- <-] & Hst).
    apply Hfired2 in Hst as (r & Hr & Hrt).
    apply Hinner in Hr as [[Hreply _]|[_ Hst]]; [|discriminate Hst].
    exists s, r. split; [done|]. split; [done|]. split; [done|]. split.
    + specialize (Hle1 backpressureTimeout Busy). rewrite N.max_0_l in Hle1.
      apply Hle1, Hcases. auto.
    + intros d Hd.
      assert (s ≤ d)%N as Hsd.
      { specialize (Hle1 d Cancelled). rewrite N.max_0_l in Hle1. apply Hle1, Hcases. auto. }
      specialize (Hle2 d StatusRequestTimeout). rewrite (N.max_r s d) in Hle2 by done.
      apply Hle2, Hinner. auto.
  - intros (s & r & Hslot & Hreply & -> & Hs & Hd).
    assert (select 0 cases ≠ None) as Hsome.
    { intros Hnone. apply (select_None _ _ Hnone s Enqueued), Hcases. auto. }
    destruct (select 0 cases) as [[t1 attempts]|] eqn:Hsel; [|done].
    pose proof (select_Some _ _ _ _ Hsel) as (_ & Hle1 & Hfired1).
    assert (t1 = s) as ->.
    { apply N.le_antisymm.
      - specialize (Hle1 s Enqueued). rewrite N.max_0_l in Hle1. apply Hle1, Hcases. auto.
      - destruct (select_fires _ _ _ _ Hsel) as [a Ha].
        apply Hfired1 in Ha as (r' & Hr' & <-). rewrite N.max_0_l.
        apply Hcases in Hr' as [[Hslot' _]|[[-> _]|[Hdone' _]]].
        + by simplify_eq.
        + done.
        + etransitivity; [apply N.le_max_l|]. by apply Hd. }
    apply list_elem_of_bind. exists Enqueued. split.
    + simpl. unfold await_reply.
      assert (select s [(reply env, StatusOK); (done env, StatusRequestTimeout)] ≠ None)
        as Hsome2.
      { intros Hnone. apply (select_None _ _ Hnone r StatusOK), Hinner. auto. }
      destruct (select s _) as [[t2 statuses]|] eqn:Hsel2; [|done].
      pose proof (select_Some _ _ _ _ Hsel2) as (Hnow2 & Hle2 & Hfired2).
      assert (t2 = N.max s r) as ->.
      { apply N.le_antisymm.
        - apply (Hle2 r StatusOK), Hinner. auto.
        - destruct (select_fires _ _ _ _ Hsel2) as [st Hst].
          apply Hfired2 in Hst as (r' & Hr' & <-).
          apply Hinner in Hr' as [[Hreply' _]|[Hdone' _]].
          + by simplify_eq.
          + etransitivity; [by apply Hd|]. apply N.le_max_r. }
      apply list_elem_of_fmap. exists StatusOK. split; [done|].
      apply Hfired2. exists r. split; [|done]. apply Hinner. auto.
    + apply Hfired1. exists s. split; [|apply N.max_0_l]. apply Hcases. auto.
Qed.

End HandlerWaits.

(** * The graph of the load generator *)

Section ClientGraph.

Implicit Types (rng : nat → nat) (nodes : list string) (edges : list (list string)).

(** The node names "N0", "N1", ... *)
Definition node_names (n : nat) : list string :=
  (λ i : nat, "N" +:+ pretty i) <$> seq 0 n.

Lemma node_names_NoDup (n : nat) : NoDup (node_names n).
Proof.
  unfold node_names. apply NoDup_fmap_2; [|apply NoDup_seq].
  intros i j Hij. simpl in Hij. injection Hij as Hij. by apply (inj pretty).
Qed.

Lemma random_edges_spec rng nodes (count calls : nat) edges :
  nodes ≠ [] →
  ∃ added, Client.random_edges rng nodes count calls edges = Some (edges ++ added) ∧
    List.length added ≤ count ∧
    ∀ e, e ∈ added → ∃ a b, e = [a; b] ∧ a ≠ b ∧ a ∈ nodes ∧ b ∈ nodes.
Proof.
  intros Hne. assert (List.length nodes ≠ 0) as Hlen by (by destruct nodes).
  revert calls edges. induction count as [|count IH]; intros calls edges; simpl.
  - exists []. rewrite app_nil_r. split; [done|]. split; [done|]. by intros e ?%elem_of_nil.
  - unfold Client.Intn. rewrite !decide_False by done. simpl.
    destruct (lookup_lt_is_Some_2 nodes (rng calls mod List.length nodes)) as [a Ha].
    { by apply Nat.mod_upper_bound. }
    destruct (lookup_lt_is_Some_2 nodes (rng (S calls) mod List.length nodes)) as [b Hb].
    { by apply Nat.mod_upper_bound. }
    rewrite Ha. simpl. rewrite Hb. simpl.
    destruct (IH (S (S calls)) (if decide (a ≠ b) then edges ++ [[a; b]] else edges))
      as (added & -> & Hcount & Hadded).
    destruct (decide (a ≠ b)) as [Hab|Hab].
    + exists ([a; b] :: added). split; [by rewrite <- app_assoc|]. split; [simpl; lia|].
      intros e [->|He]%elem_of_cons; [|by apply Hadded].
      exists a, b. split; [done|]. split; [done|].
      split; eapply list_elem_of_lookup_2; eauto.
    + exists added. split; [done|]. split; [lia|done].
Qed.

(** X18: for a positive node count that the run time can allocate the load
    generator builds a graph without panicking: the nodes are that many and
    pairwise different, the edges are at most the edge count, each has two
    different endpoints taken from the nodes, and so none of them is dropped
    by the builder. *)
Theorem buildRandomGraph_well_formed (max_cap : Z) rng (nodeCount edgeCount : Z) :
  (0 < nodeCount ≤ max_cap)%Z →
  ∃ gp, Client.buildRandomGraph max_cap rng nodeCount edgeCount = Some gp ∧
    List.length (Client.Nodes gp) = Z.to_nat nodeCount ∧
    NoDup (Client.Nodes gp) ∧
    List.length (Client.Edges gp) ≤ Z.to_nat edgeCount ∧
    (∀ e, e ∈ Client.Edges gp →
       (∃ a b, e = [a; b] ∧ a ≠ b ∧ a ∈ Client.Nodes gp ∧ b ∈ Client.Nodes gp) ∧
       ¬ dropped (Client.Nodes gp) e).
Proof.
  intros Hn. unfold Client.buildRandomGraph. rewrite decide_False by lia.
  fold (node_names (Z.to_nat nodeCount)).
  destruct (random_edges_spec rng (node_names (Z.to_nat nodeCount)) (Z.to_nat edgeCount) 0 [])
    as (added & -> & Hcount & Hadded).
  { unfold node_names. destruct (Z.to_nat nodeCount) eqn:E; [lia|done]. }
  simpl. eexists. split; [done|]. simpl.
  split; [unfold node_names; by rewrite length_fmap, length_seq|].
  split; [apply node_names_NoDup|]. split; [done|].
  intros e He. destruct (Hadded e He) as (a & b & -> & Hab & Ha & Hb).
  split; [by exists a, b|].
  intros [Hlen|(x & Hx & Hnx)]; [done|].
  apply elem_of_cons in Hx as [->|Hx]; [done|].
  apply elem_of_cons in Hx as [->|Hx]; [done|]. by apply elem_of_nil in Hx.
Qed.

Lemma buildRandomGraph_well_formed_witness :
  (0 < 3 ≤ 2 ^ 44)%Z ∧
  ∃ gp, Client.buildRandomGraph (2 ^ 44) (λ k, 2 * k + 1) 3 2 = Some gp ∧
    List.length (Client.Nodes gp) = 3 ∧
    NoDup (Client.Nodes gp) ∧
    List.length (Client.Edges gp) ≤ 2 ∧
    (∀ e, e ∈ Client.Edges gp →
       (∃ a b, e = [a; b] ∧ a ≠ b ∧ a ∈ Client.Nodes gp ∧ b ∈ Client.Nodes gp) ∧
       ¬ dropped (Client.Nodes gp) e).
Proof.
  assert (0 < 3 ≤ 2 ^ 44)%Z as H by lia.
  split; [exact H|].
  exact (buildRandomGraph_well_formed (2 ^ 44) (λ k, 2 * k + 1) 3 2 H).
Defined.

Lemma random_edges_no_nodes rng (count calls : nat) edges :
  0 < count → Client.random_edges rng [] count calls edges = None.
Proof. destruct count; [lia|done]. Qed.

(** X19: the load generator's graph builder panics exactly when the node
    count is negative, or is more than the run time allocates, or is zero
    while an edge is asked for. *)
Theorem buildRandomGraph_panics_iff (max_cap : Z) rng (nodeCount edgeCount : Z) :
  Client.buildRandomGraph max_cap rng nodeCount edgeCount = None
  ↔ (nodeCount < 0)%Z ∨ (max_cap < nodeCount)%Z ∨ (nodeCount = 0 ∧ 0 < edgeCount)%Z.
Proof.
  unfold Client.buildRandomGraph.
  destruct (decide (nodeCount < 0 ∨ max_cap < nodeCount)%Z) as [Hneg|Hneg].
  { split; [intros _|done]. destruct Hneg; [by left|by right; left]. }
  destruct (decide (nodeCount = 0%Z)) as [->|Hpos].
  - simpl. destruct (decide (0 < edgeCount)%Z) as [He|He].
    + rewrite random_edges_no_nodes by lia. simpl. split; [intros _|done].
      right. by right.
    + replace (Z.to_nat edgeCount) with 0 by lia. simpl. split; [done|]. lia.
  - fold (node_names (Z.to_nat nodeCount)).
    destruct (random_edges_spec rng (node_names (Z.to_nat nodeCount))
                (Z.to_nat edgeCount) 0 []) as (added & -> & _).
    { unfold node_names. destruct (Z.to_nat nodeCount) eqn:E; [lia|done]. }
    simpl. split; [done|]. lia.
Qed.

End ClientGraph.

(** * Undirected adjacency, and runs of the extra properties *)

Section BuilderSymmetry.

(** X20: the adjacency of a built graph is undirected and stays within the
    declared nodes: [b] is in the list of [a] exactly when [a] is in the list
    of [b], which is exactly when both are declared and the input has the
    edge (a,b) or (b,a). *)
Theorem NewGraph_undirected (nodes : list string) (edges : list (list string)) (a b : string) :
  (b ∈ index (Edges (NewGraph nodes edges)) a ↔ a ∈ index (Edges (NewGraph nodes edges)) b) ∧
  (b ∈ index (Edges (NewGraph nodes edges)) a
   ↔ a ∈ nodes ∧ b ∈ nodes ∧ ([a; b] ∈ edges ∨ [b; a] ∈ edges)).
Proof.
  pose proof (adjacent_NewGraph nodes edges) as Hadj. unfold adjacent, linked in Hadj.
  split; [|apply Hadj]. rewrite !Hadj. tauto.
Qed.

End BuilderSymmetry.

Section Runs.

(** A grid with one node "a", as a topology update on [NewGrid] leaves it. *)
Definition sample_grid : Grid :=
  {| graph := NewGraph ["a"] [];
     islands := [["a"]];
     nodeToIsland := {["a" := 0]};
     measurements := ∅ |}.

Lemma update_measurement_overwrite_witness :
  update [("a", 1%float)] sample_grid (MeasurementUpdate {| Node := "a"; Value := 1 |} None)
  = Some (store sample_grid "a" 1, []) ∧
  update [("a", 2%float)] (store sample_grid "a" 1)
    (MeasurementUpdate {| Node := "a"; Value := 2 |} (Some 7))
  = update [("a", 2%float)] sample_grid
      (MeasurementUpdate {| Node := "a"; Value := 2 |} (Some 7)).
Proof.
  assert (update [("a", 1%float)] sample_grid
            (MeasurementUpdate {| Node := "a"; Value := 1 |} None)
          = Some (store sample_grid "a" 1, [])) as H by (vm_compute; reflexivity).
  split; [exact H|].
  exact (update_measurement_overwrite _ [("a", 2%float)] _ "a" 1 2 None (Some 7) _ _ H).
Defined.

(** A grid with two unconnected nodes and nothing stored. *)
Definition two_node_grid : Grid :=
  {| graph := NewGraph ["a"; "b"] [];
     islands := [["a"]; ["b"]];
     nodeToIsland := <["a" := 0]> {["b" := 1]};
     measurements := ∅ |}.

Lemma update_measurements_commute_witness :
  coherent two_node_grid ∧ "a" ≠ "b" ∧
  ∃ sf outs outs',
    Loop two_node_grid
      [Recv (MeasurementUpdate {| Node := "a"; Value := 1 |} None) [("a", 1%float)];
       Recv (MeasurementUpdate {| Node := "b"; Value := 2 |} (Some 3))
         [("a", 1%float); ("b", 2%float)]] = Some (sf, outs) ∧
    Loop two_node_grid
      [Recv (MeasurementUpdate {| Node := "b"; Value := 2 |} (Some 3)) [("b", 2%float)];
       Recv (MeasurementUpdate {| Node := "a"; Value := 1 |} None)
         [("b", 2%float); ("a", 1%float)]] = Some (sf, outs') ∧
    HasNode (graph two_node_grid) "a" = true ∧ HasNode (graph two_node_grid) "b" = true ∧
    measurements sf !! "a" = Some 1%float ∧ measurements sf !! "b" = Some 2%float.
Proof.
  assert (coherent two_node_grid) as Hco.
  { intros x i Hx. simpl in Hx.
    apply lookup_insert_Some in Hx as [[_ <-]|[_ Hx]]; [simpl; lia|].
    apply lookup_singleton_Some in Hx as [_ <-]. simpl. lia. }
  assert ("a" ≠ "b") as Hne by discriminate.
  split; [exact Hco|]. split; [exact Hne|].
  destruct (update_measurements_commute two_node_grid {| Node := "a"; Value := 1 |}
              {| Node := "b"; Value := 2 |} None (Some 3)
              [("a", 1%float)] [("a", 1%float); ("b", 2%float)]
              [("b", 2%float)] [("b", 2%float); ("a", 1%float)] Hco Hne)
    as (sf & outs & outs' & H1 & H2).
  exists sf, outs, outs'. split; [exact H1|]. split; [exact H2|].
  split; [vm_compute; reflexivity|]. split; [vm_compute; reflexivity|].
  pose proof H1 as H1'. vm_compute in H1'. injection H1' as <- _.
  split; vm_compute; reflexivity.
Defined.

Lemma Loop_replies_witness :
  ∃ sf outs,
    Loop NewGrid
      (recv <$> [(GraphUpdate sample_graph (Some 0), []);
                 (MeasurementUpdate {| Node := "a"; Value := 1 |} None, [("a", 1%float)]);
                 (OtherEvent, []);
                 (MeasurementUpdate {| Node := "b"; Value := 2 |} (Some 2),
                  [("a", 1%float); ("b", 2%float)])]) = Some (sf, outs) ∧
    outs.*1 = [0; 2].
Proof.
  destruct (Loop_NewGrid_total
              (recv <$> [(GraphUpdate sample_graph (Some 0), []);
                 (MeasurementUpdate {| Node := "a"; Value := 1 |} None, [("a", 1%float)]);
                 (OtherEvent, []);
                 (MeasurementUpdate {| Node := "b"; Value := 2 |} (Some 2),
                  [("a", 1%float); ("b", 2%float)])])) as (sf & outs & HL & _).
  exists sf, outs. split; [exact HL|].
  exact (Loop_replies _ _ _ _ HL).
Defined.

End Runs.
